(** * Response-time analysis for EDF (schedcat, sched/edf/gy_rta.py)

    A shallow embedding of the module [gy_rta.py] and the properties of its
    bound functions, horizon search, test-point generator and the two
    worst-case response-time solvers.

    Conventions of the embedding.
    - Task parameters and time offsets are Python integers, modelled as [Z].
      [int(floor(a / b))] under true division is modelled as the exact floor
      quotient [a / b] on [Z] (the rounding of the intermediate float is
      outside the model); [a % b] is [a mod b] (the sign follows the divisor
      in both languages).
    - The task set is a Python list mutated in place; the solvers take it
      and return it (explicit state passing).  A Python exception aborts the
      computation: [Raise e]; the state an aborted run leaves behind is not
      tracked.  A loop of the source that has no bound ([while True],
      [while gamma_new != gamma_old]) is run with fuel; [OutOfFuel] means the
      fuel did not suffice, and a computation that is [OutOfFuel] for every
      amount of fuel does not terminate.
    - The slack array holds [float("inf")] or integers: type [num]. *)

From Stdlib Require Import ZArith QArith Lia List Sorted.
From stdpp Require Import base list.
Import ListNotations.

#[local] Open Scope Z_scope.

(** ** Outcomes of a Python computation *)

Inductive exn : Type :=
| ZeroDivisionError
| IndexError
| ValueError.

Inductive res (A : Type) : Type :=
| Ok (a : A)
| Raise (e : exn)
| OutOfFuel.

Arguments Ok {A} a.
Arguments Raise {A} e.
Arguments OutOfFuel {A}.

Definition bind {A B : Type} (m : res A) (k : A -> res B) : res B :=
  match m with
  | Ok a => k a
  | Raise e => Raise e
  | OutOfFuel => OutOfFuel
  end.

Notation "'let*' x ':=' e 'in' k" := (bind e (fun x => k))
  (at level 10, x pattern, e at level 100, k at level 200).

(** ** Numbers of the slack array: an integer or a float infinity *)

Inductive num : Type :=
| Int (z : Z)
| PosInf
| NegInf.

(** [a < b] on Python numbers. *)
Definition num_ltb (a b : num) : bool :=
  match a, b with
  | Int x, Int y => x <? y
  | Int _, PosInf => true
  | Int _, NegInf => false
  | PosInf, _ => false
  | NegInf, NegInf => false
  | NegInf, _ => true
  end.

(** [min(a, b)]: the first argument unless the second is strictly smaller. *)
Definition num_min (a b : num) : num := if num_ltb b a then b else a.

(** [d - x] for an integer [d]. *)
Definition num_rsub (d : Z) (x : num) : num :=
  match x with
  | Int z => Int (d - z)
  | PosInf => NegInf
  | NegInf => PosInf
  end.

(** The order [a <= b], as a proposition. *)
Definition num_le (a b : num) : Prop := num_ltb b a = false.

(** ** Tasks and task sets *)

Record task : Type := mkTask {
  cost : Z;
  period : Z;
  deadline : Z;
  response_time : option num   (* [None]: the attribute has not been written *)
}.

Abbreviation tskset := (list task).

Definition set_response_time (tsk : task) (r : num) : task :=
  {| cost := cost tsk; period := period tsk; deadline := deadline tsk;
     response_time := Some r |}.

(** [l[i]] for a non-negative index: [IndexError] out of range. *)
Definition index {A : Type} (l : list A) (i : nat) : res A :=
  match l !! i with
  | Some a => Ok a
  | None => Raise IndexError
  end.

(** [max(...)] and [min(...)] over a generator: [ValueError] when empty. *)
Definition py_max (l : list Z) : res Z :=
  match l with
  | [] => Raise ValueError
  | x :: r => Ok (fold_left Z.max r x)
  end.

Definition py_min (l : list Z) : res Z :=
  match l with
  | [] => Raise ValueError
  | x :: r => Ok (fold_left Z.min r x)
  end.

(** ** Bound functions (gy_rta.py, lines 14-51 and 120-134) *)

Definition dbf_i (tsk : task) (t : Z) : res Z :=
  if t <=? 0 then Ok 0
  else if period tsk =? 0 then Raise ZeroDivisionError
  else Ok (Z.max 0 (((t - deadline tsk) / period tsk + 1) * cost tsk)).

Definition rbf_i (tsk : task) (t : Z) : res Z :=
  if t <? 0 then Ok 0
  else dbf_i tsk (t + deadline tsk).

(** [acc = a; for tsk in tskset: acc += f(tsk)]. *)
Fixpoint sum_loop (f : task -> res Z) (ts : tskset) (acc : Z) : res Z :=
  match ts with
  | [] => Ok acc
  | tsk :: rest => let* x := f tsk in sum_loop f rest (acc + x)
  end.

Definition dbf (ts : tskset) (t : Z) : res Z :=
  if t <=? 0 then Ok 0
  else sum_loop (fun tsk => dbf_i tsk t) ts 0.

Definition rbf (ts : tskset) (t : Z) : res Z :=
  if t <? 0 then Ok 0
  else sum_loop (fun tsk => rbf_i tsk t) ts 0.

Definition mbf_i (tsk : task) (delta gamma : Z) : res Z :=
  let* d := dbf_i tsk delta in
  let* r := rbf_i tsk gamma in
  Ok (Z.min d r).

Definition mbf (ts : tskset) (delta gamma : Z) : res Z :=
  sum_loop (fun tsk => mbf_i tsk delta gamma) ts 0.

(** ** Supply model (lines 53-63) *)

Definition sbf_uniprocessor (t : Z) : Z := t.
Definition sbf_inverse_uniprocessor (x : Z) : Z := x.

(** ** Horizon (lines 65-79) *)

(** The [while True] loop of [find_L_prime], entered with the current [l]. *)
Fixpoint find_L_prime_loop (fuel : nat) (ts : tskset) (sbf : Z -> Z) (l : Z)
  : res Z :=
  match fuel with
  | O => OutOfFuel
  | S fuel' =>
      let* r := rbf ts l in
      if r <=? sbf l then Ok l
      else find_L_prime_loop fuel' ts sbf (l + 1)
  end.

Definition find_L_prime (fuel : nat) (ts : tskset) (sbf : Z -> Z) : res Z :=
  find_L_prime_loop fuel ts sbf 0.

Definition find_L (fuel : nat) (ts : tskset) (sbf : Z -> Z) : res Z :=
  let* l := find_L_prime fuel ts sbf in
  let* m := py_max (map deadline ts) in
  Ok (l + m).

(** ** Test points (lines 81-92) *)

(** What a generator produces when it is driven to its end: the values it
    yields, in order, closed by [Stop] (exhausted) or [Throw e] (an exception
    raised inside the generator when the next value is requested).  A consumer
    that leaves its loop early never sees the rest. *)
Inductive gen : Type :=
| Stop
| Yield (d : Z) (rest : gen)
| Throw (e : exn).

(** The inner [for tsk in tskset] of [delta_values]: does [delta] get
    yielded? *)
Fixpoint is_test_point (ts : tskset) (delta : Z) : res bool :=
  match ts with
  | [] => Ok false
  | tsk :: rest =>
      if deadline tsk =? 0 then Raise ZeroDivisionError
      else if delta mod deadline tsk =? 0 then Ok true
      else is_test_point rest delta
  end.

(** [while delta <= L], entered at [delta] with [n = L + 1 - delta] values
    still to visit. *)
Fixpoint delta_loop (ts : tskset) (n : nat) (delta : Z) : gen :=
  match n with
  | O => Stop
  | S n' =>
      match is_test_point ts delta with
      | Ok true => Yield delta (delta_loop ts n' (delta + 1))
      | Ok false => delta_loop ts n' (delta + 1)
      | Raise e => Throw e
      | OutOfFuel => Stop
      end
  end.

Definition delta_values (fuel : nat) (ts : tskset) (sbf : Z -> Z) : res gen :=
  let* L := find_L fuel ts sbf in
  let* delta := py_min (map deadline ts) in
  Ok (delta_loop ts (Z.to_nat (L + 1 - delta)) delta).

(** The values a generator yields, and whether it ends without exception. *)
Fixpoint yielded (g : gen) : list Z :=
  match g with
  | Yield d rest => d :: yielded rest
  | _ => []
  end.

Fixpoint exhausts (g : gen) : Prop :=
  match g with
  | Stop => True
  | Yield _ rest => exhausts rest
  | Throw _ => False
  end.

(** ** The task-set container *)

(** Modelled from the spec: [utilization()] of the task-set container, whose
    class is not part of this module.  It is the sum of [cost / period] over
    the tasks, here as an exact rational; the quotient by a zero period is the
    division error of the language. *)
Fixpoint utilization (ts : tskset) : res Q :=
  match ts with
  | [] => Ok 0%Q
  | tsk :: rest =>
      if period tsk =? 0 then Raise ZeroDivisionError
      else
        let* u := utilization rest in
        Ok (inject_Z (cost tsk) / inject_Z (period tsk) + u)%Q
  end.

(** [u > 1] on rationals. *)
Definition exceeds_one (u : Q) : bool := negb (Qle_bool u 1).

(** Modelled from the spec: [sort_by_deadline()] of the task-set container
    reorders the tasks ascending by deadline; here a stable insertion sort
    (each task is put before the first task of the sorted rest whose
    deadline is not smaller), so that tasks of equal deadline keep their
    order and sorting a sorted set changes nothing. *)
Fixpoint insert_by_deadline (tsk : task) (ts : tskset) : tskset :=
  match ts with
  | [] => [tsk]
  | hd :: tl =>
      if deadline tsk <=? deadline hd then tsk :: hd :: tl
      else hd :: insert_by_deadline tsk tl
  end.

Fixpoint sort_by_deadline (ts : tskset) : tskset :=
  match ts with
  | [] => []
  | tsk :: rest => insert_by_deadline tsk (sort_by_deadline rest)
  end.

(** ** The solvers (lines 94-118 and 136-166) *)

(** What an entry point returns: [False] (not schedulable) or, falling off
    the end of the function, [None]. *)
Inductive retval : Type :=
| RetFalse
| RetNone.

(** The loop [for delta in delta_values(...)] of [approx_wcrt], entered with
    the pointer [i] and the slack array [s]; it returns both as the loop
    leaves them.  In [min(s[i], delta - ...)] the entry [s[i]] is read
    before [dbf] is called. *)
Fixpoint approx_loop (ts : tskset) (sbf_inv : Z -> Z) (g : gen)
    (i : nat) (s : list num) : res (nat * list num) :=
  match g with
  | Stop => Ok (i, s)
  | Throw e => Raise e
  | Yield delta rest =>
      if Z.of_nat (length ts) - 1 <=? Z.of_nat i then Ok (i, s)   (* break *)
      else
        let* nxt := index ts (i + 1) in
        let i := if deadline nxt <=? delta then (i + 1)%nat else i in
        let* si := index s i in
        let* d := dbf ts delta in
        let s := <[i := num_min si (Int (delta - sbf_inv d))]> s in
        approx_loop ts sbf_inv rest i s
  end.

(** The loop [for i in xrange(len(tskset)-1, -1, -1)], entered with [k]
    indices [k-1, ..., 0] still to visit. *)
Fixpoint final_loop (k : nat) (ts : tskset) (s : list num)
  : res (tskset * list num) :=
  match k with
  | O => Ok (ts, s)
  | S i =>
      let* tsk := index ts i in
      let* si := index s i in
      let ts := <[i := set_response_time tsk (num_rsub (deadline tsk) si)]> ts in
      if (i =? 0)%nat then Ok (ts, s)   (* break *)
      else
        let* sp := index s (i - 1) in
        let s := <[(i - 1)%nat := num_min si sp]> s in
        final_loop i ts s
  end.

Definition approx_wcrt (fuel : nat) (ts : tskset) (sbf sbf_inv : Z -> Z)
  : res (retval * tskset) :=
  let* u := utilization ts in
  if exceeds_one u then Ok (RetFalse, ts)
  else
    let ts := sort_by_deadline ts in
    let s := replicate (length ts) PosInf in
    let* first := index ts 0 in
    let* g := delta_values fuel ts sbf in
    let* (_, s) := approx_loop ts sbf_inv g 0 s in
    let* (ts, _) := final_loop (length ts) ts s in
    Ok (RetNone, ts).

(** The [while gamma_new != gamma_old] loop of [exact_wcrt], entered with
    [gamma_old] and [gamma_new] as they are before the test. *)
Fixpoint gamma_loop (fuel : nat) (ts : tskset) (sbf_inv : Z -> Z)
    (delta gamma_old gamma_new : Z) : res Z :=
  match fuel with
  | O => OutOfFuel
  | S fuel' =>
      if gamma_new =? gamma_old then Ok gamma_new
      else
        let* m := mbf ts delta gamma_new in
        gamma_loop fuel' ts sbf_inv delta gamma_new (sbf_inv m)
  end.

(** The test-point loop of [exact_wcrt]: the guard calls [dbf] and then
    reads [s[i]]; the update reads [s[i]] again. *)
Fixpoint exact_loop (fuel : nat) (ts : tskset) (sbf_inv : Z -> Z) (g : gen)
    (i : nat) (s : list num) : res (nat * list num) :=
  match g with
  | Stop => Ok (i, s)
  | Throw e => Raise e
  | Yield delta rest =>
      if Z.of_nat (length ts) - 1 <=? Z.of_nat i then Ok (i, s)   (* break *)
      else
        let* nxt := index ts (i + 1) in
        let i := if deadline nxt <=? delta then (i + 1)%nat else i in
        let* d := dbf ts delta in
        let* si := index s i in
        if num_ltb (Int (delta - sbf_inv d)) si then
          let* m0 := mbf ts delta 0 in
          let* gamma := gamma_loop fuel ts sbf_inv delta 0 (sbf_inv m0) in
          let* si' := index s i in
          let s := <[i := num_min si' (Int (delta - gamma))]> s in
          exact_loop fuel ts sbf_inv rest i s
        else exact_loop fuel ts sbf_inv rest i s
  end.

Definition exact_wcrt (fuel : nat) (ts : tskset) (sbf sbf_inv : Z -> Z)
  : res (retval * tskset) :=
  let* u := utilization ts in
  if exceeds_one u then Ok (RetFalse, ts)
  else
    let ts := sort_by_deadline ts in
    let s := replicate (length ts) PosInf in
    let* first := index ts 0 in
    let* g := delta_values fuel ts sbf in
    let* (_, s) := exact_loop fuel ts sbf_inv g 0 s in
    let* (ts, _) := final_loop (length ts) ts s in
    Ok (RetNone, ts).

(** ** Running examples *)

(** The two-task scenario: A (C=1, T=4, D=4) and B (C=2, T=6, D=6). *)
Definition task_A : task := mkTask 1 4 4 None.
Definition task_B : task := mkTask 2 6 6 None.

(** A single task with cost = period = deadline. *)
Definition unit_task (c : Z) : task := mkTask c c c None.

(** Tasks as the data model describes them: positive cost, period and
    deadline. *)
Definition valid_task (tsk : task) : Prop :=
  0 < cost tsk /\ 0 < period tsk /\ 0 < deadline tsk.

(** ** Auxiliary notions used in the statements *)

(** The sum of [g] over the tasks. *)
Definition total (g : task -> Z) (ts : tskset) : Z :=
  fold_right (fun tsk a => g tsk + a) 0 ts.

(** The product of the periods. *)
Definition period_product (ts : tskset) : Z :=
  fold_right (fun tsk p => period tsk * p) 1 ts.

(** The request bound of a set of valid tasks at [l >= 0], in closed form
    (see [rbf_valid]). *)
Definition rbf_value (ts : tskset) (l : Z) : Z :=
  total (fun tsk => (l / period tsk + 1) * cost tsk) ts.

(** [m] is the minimum of [s[i]], [s[i+1]], ...: one of them, and below all
    of them. *)
Definition is_min_from (s : list num) (i : nat) (m : num) : Prop :=
  (exists j, (i <= j)%nat /\ s !! j = Some m)
  /\ (forall j x, (i <= j)%nat -> s !! j = Some x -> num_le m x).

(** The only exception a computation may raise is the division error: no
    sequence is indexed out of range and no [max]/[min] sees an empty
    sequence. *)
Definition in_bounds {A : Type} (r : res A) : Prop :=
  forall e, r = Raise e -> e = ZeroDivisionError.

Fixpoint gen_in_bounds (g : gen) : Prop :=
  match g with
  | Stop => True
  | Yield _ rest => gen_in_bounds rest
  | Throw e => e = ZeroDivisionError
  end.

(** Minimum and maximum of a list of integers. *)
Definition is_minimum (l : list Z) (m : Z) : Prop :=
  In m l /\ forall x, In x l -> m <= x.

Definition is_maximum (l : list Z) (m : Z) : Prop :=
  In m l /\ forall x, In x l -> x <= m.

(** [delta] is an exact multiple of the deadline of some task. *)
Definition multiple_of_a_deadline (ts : tskset) (delta : Z) : Prop :=
  exists tsk, In tsk ts /\ delta mod deadline tsk = 0.

(** Task [te] is task [ta] with a response time that is not larger. *)
Definition no_looser (te ta : task) : Prop :=
  cost te = cost ta /\ period te = period ta /\ deadline te = deadline ta
  /\ exists re ra, response_time te = Some re
                   /\ response_time ta = Some ra
                   /\ num_le re ra.

(** A task with its output field blank: what the analysis reads of it. *)
Definition erase (tsk : task) : task :=
  mkTask (cost tsk) (period tsk) (deadline tsk) None.

(** The deadlines are in non-decreasing order. *)
Definition deadline_sorted (ts : tskset) : Prop :=
  Sorted Z.le (map deadline ts).

(** The values of the bound functions where no division error arises (see
    [dbf_i_value_Ok] and the lemmas after it). *)
Definition dbf_i_value (tsk : task) (t : Z) : Z :=
  if t <=? 0 then 0
  else Z.max 0 (((t - deadline tsk) / period tsk + 1) * cost tsk).

Definition rbf_i_value (tsk : task) (t : Z) : Z :=
  if t <? 0 then 0 else dbf_i_value tsk (t + deadline tsk).

Definition dbf_value (ts : tskset) (t : Z) : Z :=
  if t <=? 0 then 0 else total (fun tsk => dbf_i_value tsk t) ts.

Definition mbf_value (ts : tskset) (delta gamma : Z) : Z :=
  total (fun tsk => Z.min (dbf_i_value tsk delta) (rbf_i_value tsk gamma)) ts.

(** Implicit deadline: the deadline is the period. *)
Definition implicit_deadline (tsk : task) : Prop :=
  deadline tsk = period tsk.

(** A task met its deadline: the response time written is at most the
    deadline. *)
Definition within_deadline (tsk : task) : Prop :=
  exists r, response_time tsk = Some r /\ num_le r (Int (deadline tsk)).

(** What the approximate analysis can write to a task of the set [ts]:
    [-inf], or the deadline minus the candidate slack
    [delta - sbf_inverse(dbf(ts, delta))] of a point [delta] of [g]. *)
Definition approx_candidate (ts : tskset) (sbf_inv : Z -> Z) (g : gen)
    (tsk : task) : Prop :=
  response_time tsk = Some NegInf
  \/ exists delta d,
       In delta (yielded g) /\ dbf ts delta = Ok d
       /\ response_time tsk
          = Some (Int (deadline tsk - (delta - sbf_inv d))).

(** What the exact analysis can write: [-inf], or the deadline minus
    [delta - gamma] for a point [delta] of [g] and a [gamma] that the mixed
    bound at [delta] maps to itself. *)
Definition exact_candidate (ts : tskset) (sbf_inv : Z -> Z) (g : gen)
    (tsk : task) : Prop :=
  response_time tsk = Some NegInf
  \/ exists delta gamma m,
       In delta (yielded g) /\ mbf ts delta gamma = Ok m
       /\ gamma = sbf_inv m
       /\ response_time tsk = Some (Int (deadline tsk - (delta - gamma))).

(** * Properties *)

(** ** The error monad *)

Lemma bind_Ok {A B : Type} (m : res A) (k : A -> res B) (b : B) :
  bind m k = Ok b -> exists a, m = Ok a /\ k a = Ok b.
Proof. destruct m as [a| |]; simpl; intros H; try discriminate. eauto. Qed.

Ltac inv_bind H :=
  let a := fresh "a" in
  let Ha := fresh "Ha" in
  apply bind_Ok in H; destruct H as (a & Ha & H).

(** ** Bound functions *)



(** ** The utilization guard *)

Lemma exceeds_one_spec (u : Q) : exceeds_one u = true <-> (1 < u)%Q.
Proof.
  unfold exceeds_one. rewrite negb_true_iff.
  destruct (Qle_bool u 1) eqn:E.
  - apply Qle_bool_iff in E. split; [discriminate|].
    intros H. exfalso. exact (Qlt_not_le _ _ H E).
  - split; [|reflexivity]. intros _. apply Qnot_le_lt. intros H.
    apply Qle_bool_iff in H. congruence.
Qed.

(** C1. When the utilization exceeds 1, both entry points return [False]
    (not schedulable) and hand the task set back as it was: same order, no
    [response_time] written.  No loop is entered, so this holds for every
    amount of fuel and every supply model. *)
Theorem utilization_guard (fuel : nat) (ts : tskset) (sbf sbf_inv : Z -> Z)
    (u : Q) :
  utilization ts = Ok u -> (1 < u)%Q ->
  approx_wcrt fuel ts sbf sbf_inv = Ok (RetFalse, ts)
  /\ exact_wcrt fuel ts sbf sbf_inv = Ok (RetFalse, ts).
Proof.
  intros Hu Hlt. apply exceeds_one_spec in Hlt.
  unfold approx_wcrt, exact_wcrt. rewrite Hu. simpl. rewrite Hlt. auto.
Qed.

Lemma utilization_guard_witness :
  approx_wcrt 0 [mkTask 3 2 2 None] sbf_uniprocessor sbf_inverse_uniprocessor
  = Ok (RetFalse, [mkTask 3 2 2 None])
  /\ exact_wcrt 0 [mkTask 3 2 2 None] sbf_uniprocessor sbf_inverse_uniprocessor
     = Ok (RetFalse, [mkTask 3 2 2 None]).
Proof.
  apply (utilization_guard 0 [mkTask 3 2 2 None] sbf_uniprocessor
           sbf_inverse_uniprocessor _ eq_refl).
  reflexivity.
Defined.

(** ** The horizon search at utilization one *)

(** For a single task with cost = period = deadline = c, the request bound at
    [l >= 0] is [(l / c + 1) * c], which is above [l]. *)
Lemma rbf_unit_task (c l : Z) :
  0 < c -> 0 <= l ->
  rbf [unit_task c] l = Ok ((l / c + 1) * c) /\ l < (l / c + 1) * c.
Proof.
  intros Hc Hl. unfold rbf, rbf_i, dbf_i; simpl.
  destruct (Z.ltb_spec l 0); [lia|].
  destruct (Z.leb_spec (l + c) 0); [lia|].
  destruct (Z.eqb_spec c 0); [lia|]. simpl.
  replace (l + c - c) with l by lia.
  pose proof (Z.div_mod l c ltac:(lia)) as Hdm.
  pose proof (Z.mod_pos_bound l c Hc) as Hm.
  assert (Hlt : l < (l / c + 1) * c) by nia.
  split; [|exact Hlt]. f_equal. lia.
Qed.

Lemma find_L_prime_loop_unit_task (c : Z) (fuel : nat) :
  0 < c ->
  forall l, 0 <= l ->
  find_L_prime_loop fuel [unit_task c] sbf_uniprocessor l = OutOfFuel.
Proof.
  intros Hc. induction fuel as [|fuel IH]; intros l Hl; [reflexivity|].
  cbn [find_L_prime_loop].
  destruct (rbf_unit_task c l Hc Hl) as [-> Hlt]. cbn [bind].
  unfold sbf_uniprocessor at 1.
  destruct (Z.leb_spec ((l / c + 1) * c) l); [lia|].
  apply IH. lia.
Qed.

Lemma utilization_unit_task (c : Z) :
  0 < c ->
  exists u, utilization [unit_task c] = Ok u /\ (u == 1)%Q.
Proof.
  intros Hc. simpl. destruct (Z.eqb_spec c 0); [lia|]. simpl.
  eexists; split; [reflexivity|].
  assert (Hne : ~ (inject_Z c == 0)%Q).
  { unfold Qeq; simpl. lia. }
  field. exact Hne.
Qed.

Lemma exceeds_one_false (u : Q) : (u <= 1)%Q -> exceeds_one u = false.
Proof.
  intros H. destruct (exceeds_one u) eqn:E; [|reflexivity].
  apply exceeds_one_spec in E. exfalso. exact (Qlt_not_le _ _ E H).
Qed.

(** A single task with cost = period = deadline = c > 0 passes the guard
    (its utilization is exactly 1) and then the first request for a test point
    runs [find_L_prime], which never returns. *)
Lemma wcrt_unit_task_diverges (c : Z) (fuel : nat) :
  0 < c ->
  approx_wcrt fuel [unit_task c] sbf_uniprocessor sbf_inverse_uniprocessor
  = OutOfFuel
  /\ exact_wcrt fuel [unit_task c] sbf_uniprocessor sbf_inverse_uniprocessor
     = OutOfFuel.
Proof.
  intros Hc.
  destruct (utilization_unit_task c Hc) as (u & Hu & Hu1).
  assert (Hex : exceeds_one u = false).
  { apply exceeds_one_false. rewrite Hu1. apply Qle_refl. }
  unfold approx_wcrt, exact_wcrt. rewrite Hu. cbn [bind]. rewrite Hex.
  cbn [sort_by_deadline insert_by_deadline].
  unfold delta_values, find_L, find_L_prime.
  rewrite (find_L_prime_loop_unit_task c fuel Hc 0) by lia.
  split; reflexivity.
Qed.

(** C2. On the single task with cost = period = deadline = 1 neither solver
    returns, whatever the fuel: no [response_time] is ever written. *)
Theorem single_task_analysis_does_not_return :
  forall fuel : nat,
    approx_wcrt fuel [unit_task 1] sbf_uniprocessor sbf_inverse_uniprocessor
    = OutOfFuel
    /\ exact_wcrt fuel [unit_task 1] sbf_uniprocessor sbf_inverse_uniprocessor
       = OutOfFuel.
Proof. intros fuel. apply wcrt_unit_task_diverges. lia. Qed.


(** ** The horizon search below utilization one *)

Lemma sum_loop_Ok (f : task -> res Z) (g : task -> Z) (ts : tskset) :
  Forall (fun tsk => f tsk = Ok (g tsk)) ts ->
  forall acc, sum_loop f ts acc = Ok (acc + total g ts).
Proof.
  induction 1 as [|tsk rest Hf _ IH]; intros acc; simpl.
  - f_equal. lia.
  - rewrite Hf. simpl. rewrite IH. f_equal. lia.
Qed.

Lemma rbf_i_valid (tsk : task) (l : Z) :
  valid_task tsk -> 0 <= l ->
  rbf_i tsk l = Ok ((l / period tsk + 1) * cost tsk).
Proof.
  intros (HC & HT & HD) Hl. unfold rbf_i, dbf_i.
  destruct (Z.ltb_spec l 0); [lia|].
  destruct (Z.leb_spec (l + deadline tsk) 0); [lia|].
  destruct (Z.eqb_spec (period tsk) 0); [lia|].
  replace (l + deadline tsk - deadline tsk) with l by lia.
  pose proof (Z.div_pos l (period tsk) Hl HT).
  f_equal. apply Z.max_r. nia.
Qed.

Lemma rbf_valid (ts : tskset) (l : Z) :
  Forall valid_task ts -> 0 <= l -> rbf ts l = Ok (rbf_value ts l).
Proof.
  intros Hv Hl. unfold rbf. destruct (Z.ltb_spec l 0); [lia|].
  rewrite (sum_loop_Ok _ (fun tsk => (l / period tsk + 1) * cost tsk)).
  - reflexivity.
  - eapply Forall_impl; [exact Hv|]. intros tsk Ht. simpl.
    apply rbf_i_valid; assumption.
Qed.

Lemma period_product_pos (ts : tskset) :
  Forall valid_task ts -> 0 < period_product ts.
Proof.
  induction 1 as [|tsk rest (_ & HT & _) _ IH]; simpl; [lia|nia].
Qed.

Lemma period_product_divide (ts : tskset) :
  Forall (fun tsk => (period tsk | period_product ts)) ts.
Proof.
  induction ts as [|tsk rest IH]; constructor; simpl.
  - apply Z.divide_factor_l.
  - eapply Forall_impl; [exact IH|]. intros t Ht. simpl in *.
    apply Z.divide_mul_r. exact Ht.
Qed.

Lemma total_cost_nonneg (ts : tskset) :
  Forall valid_task ts -> 0 <= total cost ts.
Proof.
  induction 1 as [|tsk rest (HC & _ & _) _ IH]; simpl; lia.
Qed.

(** Utilization times a common multiple [M] of the periods is an integer. *)
Lemma utilization_scaled (M : Z) (ts : tskset) :
  Forall valid_task ts ->
  Forall (fun tsk => (period tsk | M)) ts ->
  forall u, utilization ts = Ok u ->
  (u * inject_Z M
   == inject_Z (total (fun tsk => (cost tsk * (M / period tsk))%Z) ts))%Q.
Proof.
  induction 1 as [|tsk rest (HC & HT & HD) _ IH]; intros Hd u Hu.
  - simpl in Hu. injection Hu as <-. simpl. ring.
  - inversion Hd as [|? ? Hdt Hdr]; subst.
    simpl in Hu. destruct (Z.eqb_spec (period tsk) 0); [lia|].
    inv_bind Hu. injection Hu as <-.
    specialize (IH Hdr _ Ha). simpl.
    rewrite inject_Z_plus, <- IH.
    destruct Hdt as [q Hq].
    replace (M / period tsk) with q
      by (rewrite Hq; symmetry; apply Z.div_mul; lia).
    assert (HM : (inject_Z M == inject_Z q * inject_Z (period tsk))%Q).
    { rewrite Hq at 1. rewrite inject_Z_mult. reflexivity. }
    assert (Hne : ~ (inject_Z (period tsk) == 0)%Q).
    { unfold Qeq; simpl. lia. }
    rewrite inject_Z_mult, !HM. field. exact Hne.
Qed.

Lemma rbf_value_at_multiple (M k : Z) (ts : tskset) :
  Forall valid_task ts ->
  Forall (fun tsk => (period tsk | M)) ts ->
  rbf_value ts (k * M)
  = k * total (fun tsk => cost tsk * (M / period tsk)) ts + total cost ts.
Proof.
  unfold rbf_value.
  induction 1 as [|tsk rest (HC & HT & HD) _ IH]; intros Hd; simpl; [lia|].
  inversion Hd as [|? ? Hdt Hdr]; subst.
  rewrite (IH Hdr).
  rewrite (Z.divide_div_mul_exact M (period tsk) k) by (assumption || lia).
  ring.
Qed.

(** Below utilization one the request bound meets the supply somewhere. *)
Lemma rbf_meets_supply (ts : tskset) (u : Q) :
  Forall valid_task ts -> utilization ts = Ok u -> (u < 1)%Q ->
  exists l, 0 <= l /\ rbf_value ts l <= l.
Proof.
  intros Hv Hu Hlt.
  set (P := period_product ts).
  set (W := total (fun tsk => cost tsk * (P / period tsk)) ts).
  pose proof (period_product_pos ts Hv) as HP. fold P in HP.
  pose proof (total_cost_nonneg ts Hv) as Hk.
  pose proof (utilization_scaled P ts Hv (period_product_divide ts) u Hu) as HW.
  fold W in HW.
  assert (HWP : W < P).
  { rewrite Zlt_Qlt, <- HW.
    rewrite <- (Qmult_1_l (inject_Z P)) at 2.
    apply Qmult_lt_compat_r; [|exact Hlt].
    change 0%Q with (inject_Z 0). rewrite <- Zlt_Qlt. exact HP. }
  exists (total cost ts * P). split; [nia|].
  rewrite (rbf_value_at_multiple P _ ts Hv (period_product_divide ts)).
  fold W. nia.
Qed.

(** The linear scan from [l0] finds the first point at or after [l0] where
    the request bound is within the supply, once one exists within [n]
    steps; [n] units of fuel are enough. *)
Lemma find_L_prime_loop_scan (ts : tskset) (sbf R : Z -> Z) :
  (forall l, 0 <= l -> rbf ts l = Ok (R l)) ->
  forall (n : nat) (l0 : Z),
    0 <= l0 ->
    (exists l1, l0 <= l1 < l0 + Z.of_nat n /\ R l1 <= sbf l1) ->
    exists l,
      l0 <= l
      /\ (forall fuel, (n <= fuel)%nat ->
                       find_L_prime_loop fuel ts sbf l0 = Ok l)
      /\ R l <= sbf l
      /\ (forall l', l0 <= l' < l -> sbf l' < R l').
Proof.
  intros HR. induction n as [|n IH]; intros l0 Hl0 (l1 & Hl1 & Hle); [lia|].
  destruct (Z_le_gt_dec (R l0) (sbf l0)) as [Hhit|Hmiss].
  - exists l0. repeat split; try lia.
    intros [|fuel] Hf; [lia|]. cbn [find_L_prime_loop].
    rewrite (HR l0 Hl0). cbn [bind].
    destruct (Z.leb_spec (R l0) (sbf l0)); [reflexivity|lia].
  - assert (Hne : l1 <> l0) by (intros ->; lia).
    destruct (IH (l0 + 1) ltac:(lia)) as (l & Hl & Hrun & Hok & Hmin).
    { exists l1. split; [lia|exact Hle]. }
    exists l. repeat split; try lia.
    + intros [|fuel] Hf; [lia|]. cbn [find_L_prime_loop].
      rewrite (HR l0 Hl0). cbn [bind].
      destruct (Z.leb_spec (R l0) (sbf l0)); [lia|].
      apply Hrun. lia.
    + intros l' Hl'. destruct (Z.eq_dec l' l0) as [->|]; [lia|].
      apply Hmin. lia.
Qed.



(** ** The order on slack values *)

Lemma num_le_refl (a : num) : num_le a a.
Proof. destruct a; unfold num_le; simpl; try reflexivity. apply Z.ltb_irrefl. Qed.

Lemma num_le_trans (a b c : num) : num_le a b -> num_le b c -> num_le a c.
Proof.
  unfold num_le. destruct a, b, c; simpl; try congruence; try reflexivity.
  rewrite !Z.ltb_ge. lia.
Qed.

Lemma num_min_le_l (a b : num) : num_le (num_min a b) a.
Proof.
  unfold num_min. destruct (num_ltb b a) eqn:E; [|apply num_le_refl].
  unfold num_le. destruct a, b; simpl in *; try congruence.
  apply Z.ltb_lt in E. apply Z.ltb_ge. lia.
Qed.

Lemma num_min_le_r (a b : num) : num_le (num_min a b) b.
Proof.
  unfold num_min. destruct (num_ltb b a) eqn:E; [apply num_le_refl|exact E].
Qed.

Lemma num_min_cases (a b : num) : num_min a b = a \/ num_min a b = b.
Proof. unfold num_min. destruct (num_ltb b a); auto. Qed.

(** ** The finalization pass *)

Lemma index_Ok {A : Type} (l : list A) (i : nat) (a : A) :
  index l i = Ok a <-> l !! i = Some a.
Proof.
  unfold index. destruct (l !! i); split; intros H; congruence.
Qed.

Lemma index_lt {A : Type} (l : list A) (i : nat) :
  (i < length l)%nat -> exists a, index l i = Ok a /\ l !! i = Some a.
Proof.
  intros H. destruct (lookup_lt_is_Some_2 l i H) as [a Ha].
  exists a. split; [apply index_Ok|]; exact Ha.
Qed.

(** The loop invariant of the finalization pass entered with [k] indices to
    visit: entries from [k] on are left alone, [s'[k-1]] is [s[k-1]], every
    lower entry of the slack array is the minimum of its right neighbour
    (already propagated) and its own old value, and every visited task gets
    its deadline minus its propagated slack. *)
Lemma final_loop_inv (k : nat) :
  forall (ts : tskset) (s : list num),
    (k <= length ts)%nat -> (k <= length s)%nat ->
    exists ts' s',
      final_loop k ts s = Ok (ts', s')
      /\ length ts' = length ts /\ length s' = length s
      /\ (forall j, (k <= j)%nat -> ts' !! j = ts !! j /\ s' !! j = s !! j)
      /\ (forall j, S j = k -> s' !! j = s !! j)
      /\ (forall j x y, (S j < k)%nat -> s' !! (S j) = Some x ->
                        s !! j = Some y -> s' !! j = Some (num_min x y))
      /\ (forall j tsk x, (j < k)%nat -> ts !! j = Some tsk ->
                          s' !! j = Some x ->
                          ts' !! j = Some (set_response_time tsk
                                             (num_rsub (deadline tsk) x))).
Proof.
  induction k as [|i IH]; intros ts s Hts Hs.
  - exists ts, s. simpl. repeat split; intros; lia.
  - cbn [final_loop].
    destruct (index_lt ts i ltac:(lia)) as (tsk & -> & Htsk).
    destruct (index_lt s i ltac:(lia)) as (si & -> & Hsi). cbn [bind].
    set (ts1 := <[i := set_response_time tsk (num_rsub (deadline tsk) si)]> ts).
    assert (Hts1 : ts1 !! i = Some (set_response_time tsk
                                      (num_rsub (deadline tsk) si))).
    { apply list_lookup_insert_eq. lia. }
    destruct (Nat.eqb_spec i 0) as [->|Hi].
    + exists ts1, s. split; [reflexivity|].
      split; [apply length_insert|]. split; [reflexivity|].
      split.
      { intros j Hj. split; [|reflexivity].
        apply list_lookup_insert_ne. lia. }
      split; [reflexivity|]. split; [intros; lia|].
      intros j t x Hj Ht Hx. assert (j = 0%nat) as -> by lia.
      rewrite Htsk in Ht. rewrite Hsi in Hx.
      injection Ht as <-. injection Hx as <-. exact Hts1.
    + destruct (index_lt s (i - 1) ltac:(lia)) as (sp & -> & Hsp). cbn [bind].
      set (s1 := <[(i - 1)%nat := num_min si sp]> s).
      destruct (IH ts1 s1) as (ts' & s' & Hrun & Hlt & Hls & Hge & Htop & Hmin & Hrt).
      { unfold ts1. rewrite length_insert. lia. }
      { unfold s1. rewrite length_insert. lia. }
      assert (Hs1 : forall j, j <> (i - 1)%nat -> s1 !! j = s !! j).
      { intros j Hj. apply list_lookup_insert_ne. lia. }
      assert (Hs1p : s1 !! (i - 1)%nat = Some (num_min si sp)).
      { apply list_lookup_insert_eq. lia. }
      assert (Hts1' : forall j, j <> i -> ts1 !! j = ts !! j).
      { intros j Hj. apply list_lookup_insert_ne. lia. }
      exists ts', s'. split; [exact Hrun|].
      split; [rewrite Hlt; apply length_insert|].
      split; [rewrite Hls; apply length_insert|].
      split.
      { intros j Hj. destruct (Hge j ltac:(lia)) as [-> ->].
        split; [apply Hts1'|apply Hs1]; lia. }
      split.
      { intros j Hj. assert (j = i) as -> by lia.
        destruct (Hge i ltac:(lia)) as [_ ->]. apply Hs1. lia. }
      split.
      { intros j x y Hj Hx Hy.
        destruct (Nat.eq_dec (S j) i) as [Hji|Hji].
        - assert (j = (i - 1)%nat) as -> by lia.
          rewrite (Htop (i - 1)%nat ltac:(lia)), Hs1p.
          replace (S (i - 1)) with i in Hx by lia.
          destruct (Hge i ltac:(lia)) as [_ Hsi'].
          rewrite Hsi', Hs1, Hsi in Hx by lia.
          rewrite Hsp in Hy. congruence.
        - apply (Hmin j x y); [lia|exact Hx|].
          rewrite Hs1 by lia. exact Hy. }
      intros j t x Hj Ht Hx.
      destruct (Nat.eq_dec j i) as [->|Hji].
      * destruct (Hge i ltac:(lia)) as [-> Hsi'].
        rewrite Hsi', Hs1, Hsi in Hx by lia.
        rewrite Htsk in Ht. injection Ht as <-. injection Hx as <-.
        exact Hts1.
      * apply Hrt; [lia| |exact Hx]. rewrite Hts1' by lia. exact Ht.
Qed.

(** An array built from [s] by the propagation [s'[j] = min(s'[j+1], s[j])]
    below a last entry [s'[n-1] = s[n-1]] holds the suffix minima of [s]. *)
Lemma propagated_is_min (s s' : list num) :
  length s' = length s ->
  (forall j, S j = length s -> s' !! j = s !! j) ->
  (forall j x y, (S j < length s)%nat -> s' !! (S j) = Some x ->
                 s !! j = Some y -> s' !! j = Some (num_min x y)) ->
  forall d i m, (i + d = length s)%nat -> s' !! i = Some m ->
                is_min_from s i m.
Proof.
  intros Hlen Htop Hstep. induction d as [|d IH]; intros i m Hd Hm.
  - apply lookup_lt_Some in Hm. lia.
  - destruct (Nat.eq_dec (S i) (length s)) as [Hlast|Hnl].
    + rewrite (Htop i Hlast) in Hm. split.
      * exists i. split; [lia|exact Hm].
      * intros j x Hj Hx. pose proof (lookup_lt_Some _ _ _ Hx).
        assert (j = i) as -> by lia.
        rewrite Hm in Hx. injection Hx as <-. apply num_le_refl.
    + destruct (lookup_lt_is_Some_2 s' (S i) ltac:(lia)) as [x Hx].
      destruct (lookup_lt_is_Some_2 s i ltac:(lia)) as [y Hy].
      rewrite (Hstep i x y ltac:(lia) Hx Hy) in Hm. injection Hm as <-.
      destruct (IH (S i) x ltac:(lia) Hx) as [(j & Hj & Hjx) Hlow].
      split.
      * destruct (num_min_cases x y) as [-> | ->].
        -- exists j. split; [lia|exact Hjx].
        -- exists i. split; [lia|exact Hy].
      * intros j' z Hj' Hz.
        destruct (Nat.eq_dec j' i) as [->|Hne].
        -- rewrite Hy in Hz. injection Hz as <-. apply num_min_le_r.
        -- eapply num_le_trans; [apply num_min_le_l|].
           apply (Hlow j' z); [lia|exact Hz].
Qed.

(** What the finalization pass returns (shared by the results below). *)
Lemma final_loop_result (ts : tskset) (s : list num) :
  length s = length ts ->
  exists ts' s',
    final_loop (length ts) ts s = Ok (ts', s')
    /\ length ts' = length ts
    /\ forall i tsk, ts !! i = Some tsk ->
         exists m, is_min_from s i m
                   /\ s' !! i = Some m
                   /\ ts' !! i = Some (set_response_time tsk
                                         (num_rsub (deadline tsk) m)).
Proof.
  intros Hlen.
  destruct (final_loop_inv (length ts) ts s ltac:(lia) ltac:(lia))
    as (ts' & s' & Hrun & Hlt & Hls & _ & Htop & Hmin & Hrt).
  exists ts', s'. split; [exact Hrun|]. split; [exact Hlt|].
  intros i tsk Hi. pose proof (lookup_lt_Some _ _ _ Hi) as Hil.
  destruct (lookup_lt_is_Some_2 s' i ltac:(lia)) as [m Hm].
  exists m. split; [|split; [exact Hm|]].
  - apply (propagated_is_min s s' Hls) with (d := (length s - i)%nat).
    + intros j Hj. apply Htop. lia.
    + intros j x y Hj. apply Hmin. lia.
    + lia.
    + exact Hm.
  - apply Hrt; [lia|exact Hi|exact Hm].
Qed.


(** One iteration of the finalization pass at an index [i + 1 > 0]: the
    task at that index is finalized from the current [s[i+1]], then [s[i]]
    becomes [min(s[i+1], s[i])], and the pass goes on with index [i]. *)
Lemma final_loop_step (ts : tskset) (s : list num) (i : nat) (tsk : task)
    (si sp : num) :
  ts !! S i = Some tsk -> s !! S i = Some si -> s !! i = Some sp ->
  final_loop (S (S i)) ts s
  = final_loop (S i)
      (<[S i := set_response_time tsk (num_rsub (deadline tsk) si)]> ts)
      (<[i := num_min si sp]> s).
Proof.
  intros Ht Hsi Hsp. cbn [final_loop]. unfold index at 1 2.
  rewrite Ht, Hsi. cbn [bind Nat.eqb].
  replace (S i - 1)%nat with i by lia.
  unfold index at 1. rewrite Hsp. reflexivity.
Qed.

(** C6. The finalization pass (shared by [approx_wcrt] and [exact_wcrt])
    visits the indices from the highest down: at an index [i + 1] it writes
    [response_time = deadline - s[i+1]], then sets [s[i] = min(s[i+1], s[i])]
    and only then goes on to index [i].  Run over the whole task set with a
    slack array of the same length it returns, and in what it returns the
    slack entry of every index [i] is the minimum of the slack bounds [s[i]],
    [s[i+1]], ... the pass was entered with, and task [i] carries
    [response_time = deadline - that minimum] (its other fields unchanged). *)
Theorem final_loop_backward_min (ts : tskset) (s : list num) :
  length s = length ts ->
  (forall i tsk si sp,
      ts !! S i = Some tsk -> s !! S i = Some si -> s !! i = Some sp ->
      final_loop (S (S i)) ts s
      = final_loop (S i)
          (<[S i := set_response_time tsk (num_rsub (deadline tsk) si)]> ts)
          (<[i := num_min si sp]> s))
  /\ exists ts' s',
      final_loop (length ts) ts s = Ok (ts', s')
      /\ length ts' = length ts
      /\ forall i tsk, ts !! i = Some tsk ->
           exists m, is_min_from s i m
                     /\ s' !! i = Some m
                     /\ ts' !! i = Some (set_response_time tsk
                                           (num_rsub (deadline tsk) m)).
Proof.
  intros Hlen. split.
  - intros i tsk si sp. apply final_loop_step.
  - apply final_loop_result. exact Hlen.
Qed.

Lemma final_loop_backward_min_witness :
  final_loop 2 [task_A; task_B] [Int 3; Int 1]
  = Ok ([mkTask 1 4 4 (Some (Int 3)); mkTask 2 6 6 (Some (Int 5))],
        [Int 1; Int 1])
  /\ exists ts' s',
      final_loop 2 [task_A; task_B] [Int 3; Int 1] = Ok (ts', s')
      /\ length ts' = 2%nat
      /\ forall i tsk, [task_A; task_B] !! i = Some tsk ->
           exists m, is_min_from [Int 3; Int 1] i m
                     /\ s' !! i = Some m
                     /\ ts' !! i = Some (set_response_time tsk
                                           (num_rsub (deadline tsk) m)).
Proof.
  destruct (final_loop_backward_min [task_A; task_B] [Int 3; Int 1] eq_refl)
    as [Hstep Hres].
  split; [|exact Hres].
  rewrite (Hstep 0%nat task_B (Int 1) (Int 3) eq_refl eq_refl eq_refl).
  reflexivity.
Defined.

(** ** Sequence accesses *)

Lemma in_bounds_Ok {A : Type} (a : A) : in_bounds (Ok a).
Proof. intros e H. discriminate. Qed.

Lemma in_bounds_OutOfFuel {A : Type} : in_bounds (@OutOfFuel A).
Proof. intros e H. discriminate. Qed.

Lemma in_bounds_bind {A B : Type} (m : res A) (k : A -> res B) :
  in_bounds m -> (forall a, m = Ok a -> in_bounds (k a)) ->
  in_bounds (bind m k).
Proof.
  intros Hm Hk. destruct m as [a|e|]; simpl.
  - apply Hk. reflexivity.
  - intros e' H. injection H as <-. apply Hm. reflexivity.
  - apply in_bounds_OutOfFuel.
Qed.

Create HintDb in_bounds.
#[local] Hint Resolve in_bounds_Ok in_bounds_OutOfFuel : in_bounds.

(** Peel the binds of a computation, closing each step from the database. *)
Ltac in_bounds_steps :=
  repeat (apply in_bounds_bind; [solve [auto with in_bounds]|intros ? _]);
  auto with in_bounds.

Lemma dbf_i_in_bounds (tsk : task) (t : Z) : in_bounds (dbf_i tsk t).
Proof.
  unfold dbf_i. destruct (t <=? 0); [auto with in_bounds|].
  destruct (period tsk =? 0); [|auto with in_bounds].
  intros e H. congruence.
Qed.
#[local] Hint Resolve dbf_i_in_bounds : in_bounds.

Lemma rbf_i_in_bounds (tsk : task) (t : Z) : in_bounds (rbf_i tsk t).
Proof. unfold rbf_i. destruct (t <? 0); auto with in_bounds. Qed.
#[local] Hint Resolve rbf_i_in_bounds : in_bounds.

Lemma mbf_i_in_bounds (tsk : task) (delta gamma : Z) :
  in_bounds (mbf_i tsk delta gamma).
Proof. unfold mbf_i. in_bounds_steps. Qed.
#[local] Hint Resolve mbf_i_in_bounds : in_bounds.

Lemma sum_loop_in_bounds (f : task -> res Z) (ts : tskset) :
  (forall tsk, in_bounds (f tsk)) -> forall acc, in_bounds (sum_loop f ts acc).
Proof.
  intros Hf. induction ts as [|tsk rest IH]; intros acc; simpl.
  - apply in_bounds_Ok.
  - apply in_bounds_bind; [apply Hf|]. intros x _. apply IH.
Qed.

#[local] Hint Resolve sum_loop_in_bounds : in_bounds.

Lemma dbf_in_bounds (ts : tskset) (t : Z) : in_bounds (dbf ts t).
Proof. unfold dbf. destruct (t <=? 0); auto with in_bounds. Qed.

Lemma rbf_in_bounds (ts : tskset) (t : Z) : in_bounds (rbf ts t).
Proof. unfold rbf. destruct (t <? 0); auto with in_bounds. Qed.

Lemma mbf_in_bounds (ts : tskset) (delta gamma : Z) :
  in_bounds (mbf ts delta gamma).
Proof. unfold mbf. auto with in_bounds. Qed.
#[local] Hint Resolve dbf_in_bounds rbf_in_bounds mbf_in_bounds : in_bounds.

Lemma find_L_prime_loop_in_bounds (fuel : nat) (ts : tskset) (sbf : Z -> Z) :
  forall l, in_bounds (find_L_prime_loop fuel ts sbf l).
Proof.
  induction fuel as [|fuel IH]; intros l; simpl; [apply in_bounds_OutOfFuel|].
  apply in_bounds_bind; [apply rbf_in_bounds|]. intros r _.
  destruct (r <=? sbf l); [apply in_bounds_Ok|apply IH].
Qed.

Lemma is_test_point_in_bounds (ts : tskset) (delta : Z) :
  in_bounds (is_test_point ts delta).
Proof.
  induction ts as [|tsk rest IH]; simpl; [apply in_bounds_Ok|].
  destruct (deadline tsk =? 0); [intros e H; congruence|].
  destruct (delta mod deadline tsk =? 0); [apply in_bounds_Ok|exact IH].
Qed.

Lemma delta_loop_in_bounds (ts : tskset) (n : nat) :
  forall delta, gen_in_bounds (delta_loop ts n delta).
Proof.
  induction n as [|n IH]; intros delta; simpl; [exact I|].
  pose proof (is_test_point_in_bounds ts delta) as H.
  destruct (is_test_point ts delta) as [[|]|e|]; simpl; auto.
Qed.

Lemma delta_values_in_bounds (fuel : nat) (ts : tskset) (sbf : Z -> Z) :
  ts <> [] ->
  in_bounds (delta_values fuel ts sbf)
  /\ forall g, delta_values fuel ts sbf = Ok g -> gen_in_bounds g.
Proof.
  intros Hne. destruct ts as [|tsk rest]; [congruence|].
  unfold delta_values, find_L, find_L_prime. split.
  - apply in_bounds_bind.
    + apply in_bounds_bind; [apply find_L_prime_loop_in_bounds|].
      intros l _. simpl. apply in_bounds_Ok.
    + intros L _. simpl. apply in_bounds_Ok.
  - intros g H. inv_bind H. simpl in H. injection H as <-.
    apply delta_loop_in_bounds.
Qed.

Lemma gamma_loop_in_bounds (fuel : nat) (ts : tskset) (sbf_inv : Z -> Z)
    (delta : Z) :
  forall gamma_old gamma_new,
    in_bounds (gamma_loop fuel ts sbf_inv delta gamma_old gamma_new).
Proof.
  induction fuel as [|fuel IH]; intros go gn; simpl;
    [apply in_bounds_OutOfFuel|].
  destruct (gn =? go); [apply in_bounds_Ok|].
  apply in_bounds_bind; [apply mbf_in_bounds|]. intros m _. apply IH.
Qed.

Lemma index_in_bounds {A : Type} (l : list A) (i : nat) :
  (i < length l)%nat -> in_bounds (index l i).
Proof. intros H. destruct (index_lt l i H) as (a & -> & _). apply in_bounds_Ok. Qed.

(** The test-point loops keep [i] a valid index of the task set and of the
    slack array: [tskset[i+1]] is read only when [i < len(tskset) - 1]. *)
Lemma approx_loop_in_bounds (ts : tskset) (sbf_inv : Z -> Z) (g : gen) :
  gen_in_bounds g ->
  forall i s, (i < length ts)%nat -> length s = length ts ->
    in_bounds (approx_loop ts sbf_inv g i s)
    /\ forall i' s', approx_loop ts sbf_inv g i s = Ok (i', s') ->
                     (i' < length ts)%nat /\ length s' = length ts.
Proof.
  induction g as [|delta rest IH|e]; intros Hg i s Hi Hs;
    cbn [approx_loop gen_in_bounds] in *.
  - split; [apply in_bounds_Ok|]. intros i' s' H. injection H as <- <-. auto.
  - destruct (Z.leb_spec (Z.of_nat (length ts) - 1) (Z.of_nat i)) as [Hb|Hb].
    { split; [apply in_bounds_Ok|]. intros i' s' H. injection H as <- <-. auto. }
    destruct (index_lt ts (i + 1) ltac:(lia)) as (nxt & -> & _). cbn [bind].
    set (i1 := if deadline nxt <=? delta then (i + 1)%nat else i).
    assert (Hi1 : (i1 < length ts)%nat).
    { unfold i1. destruct (deadline nxt <=? delta); lia. }
    destruct (index_lt s i1 ltac:(lia)) as (si & -> & _). cbn [bind].
    split.
    + apply in_bounds_bind; [apply dbf_in_bounds|]. intros d _.
      apply IH; [exact Hg|exact Hi1|].
      rewrite length_insert. exact Hs.
    + intros i' s' H. inv_bind H.
      eapply IH; [exact Hg|exact Hi1| |exact H].
      rewrite length_insert. exact Hs.
  - split; [|intros i' s' H; discriminate].
    intros e' H. injection H as <-. exact Hg.
Qed.

Lemma exact_loop_in_bounds (fuel : nat) (ts : tskset) (sbf_inv : Z -> Z)
    (g : gen) :
  gen_in_bounds g ->
  forall i s, (i < length ts)%nat -> length s = length ts ->
    in_bounds (exact_loop fuel ts sbf_inv g i s)
    /\ forall i' s', exact_loop fuel ts sbf_inv g i s = Ok (i', s') ->
                     (i' < length ts)%nat /\ length s' = length ts.
Proof.
  induction g as [|delta rest IH|e]; intros Hg i s Hi Hs;
    cbn [exact_loop gen_in_bounds] in *.
  - split; [apply in_bounds_Ok|]. intros i' s' H. injection H as <- <-. auto.
  - destruct (Z.leb_spec (Z.of_nat (length ts) - 1) (Z.of_nat i)) as [Hb|Hb].
    { split; [apply in_bounds_Ok|]. intros i' s' H. injection H as <- <-. auto. }
    destruct (index_lt ts (i + 1) ltac:(lia)) as (nxt & -> & _). cbn [bind].
    set (i1 := if deadline nxt <=? delta then (i + 1)%nat else i).
    assert (Hi1 : (i1 < length ts)%nat).
    { unfold i1. destruct (deadline nxt <=? delta); lia. }
    destruct (index_lt s i1 ltac:(lia)) as (si & Hsi & _).
    assert (Hins : forall x, length (<[i1:=x]> s) = length ts).
    { intros x. rewrite length_insert. exact Hs. }
    split.
    + apply in_bounds_bind; [apply dbf_in_bounds|]. intros d _.
      rewrite Hsi. cbn [bind].
      destruct (num_ltb (Int (delta - sbf_inv d)) si).
      * apply in_bounds_bind; [apply mbf_in_bounds|]. intros m0 _.
        apply in_bounds_bind; [apply gamma_loop_in_bounds|]. intros gamma _.
        cbn [bind]. apply IH; [exact Hg|exact Hi1|apply Hins].
      * apply IH; [exact Hg|exact Hi1|exact Hs].
    + intros i' s' H. inv_bind H. rewrite Hsi in H. cbn [bind] in H.
      destruct (num_ltb (Int (delta - sbf_inv a)) si).
      * inv_bind H. inv_bind H. cbn [bind] in H.
        eapply IH; [exact Hg|exact Hi1|apply Hins|exact H].
      * eapply IH; [exact Hg|exact Hi1|exact Hs|exact H].
  - split; [|intros i' s' H; discriminate].
    intros e' H. injection H as <-. exact Hg.
Qed.

Lemma insert_by_deadline_length (tsk : task) (ts : tskset) :
  length (insert_by_deadline tsk ts) = S (length ts).
Proof.
  induction ts as [|hd tl IH]; simpl; [reflexivity|].
  destruct (deadline tsk <=? deadline hd); simpl; [reflexivity|].
  rewrite IH. reflexivity.
Qed.

Lemma sort_by_deadline_length (ts : tskset) :
  length (sort_by_deadline ts) = length ts.
Proof.
  induction ts as [|tsk rest IH]; simpl; [reflexivity|].
  rewrite insert_by_deadline_length, IH. reflexivity.
Qed.

Lemma utilization_in_bounds (ts : tskset) : in_bounds (utilization ts).
Proof.
  induction ts as [|tsk rest IH]; simpl; [apply in_bounds_Ok|].
  destruct (period tsk =? 0); [intros e H; congruence|].
  apply in_bounds_bind; [exact IH|]. intros u _. apply in_bounds_Ok.
Qed.

Lemma final_loop_in_bounds (ts : tskset) (s : list num) :
  length s = length ts -> in_bounds (final_loop (length ts) ts s).
Proof.
  intros H.
  destruct (final_loop_inv (length ts) ts s ltac:(lia) ltac:(lia))
    as (ts' & s' & -> & _). apply in_bounds_Ok.
Qed.

Lemma wcrt_empty (fuel : nat) (sbf sbf_inv : Z -> Z) :
  approx_wcrt fuel [] sbf sbf_inv = Raise IndexError
  /\ exact_wcrt fuel [] sbf sbf_inv = Raise IndexError.
Proof. split; reflexivity. Qed.

Lemma approx_wcrt_in_bounds (fuel : nat) (ts : tskset) (sbf sbf_inv : Z -> Z) :
  ts <> [] -> in_bounds (approx_wcrt fuel ts sbf sbf_inv).
Proof.
  intros Hne. unfold approx_wcrt.
  apply in_bounds_bind; [apply utilization_in_bounds|]. intros u _.
  destruct (exceeds_one u); [apply in_bounds_Ok|].
  set (sorted := sort_by_deadline ts).
  assert (Hlen : (0 < length sorted)%nat).
  { unfold sorted. rewrite sort_by_deadline_length.
    destruct ts; [congruence|simpl; lia]. }
  assert (Hsne : sorted <> []) by (intros E; rewrite E in Hlen; simpl in Hlen; lia).
  apply in_bounds_bind; [apply index_in_bounds; exact Hlen|]. intros first _.
  destruct (delta_values_in_bounds fuel sorted sbf Hsne) as [Hdv Hgen].
  apply in_bounds_bind; [exact Hdv|]. intros g Hg.
  destruct (approx_loop_in_bounds sorted sbf_inv g (Hgen g Hg) 0
              (replicate (length sorted) PosInf) Hlen
              (length_replicate _ _)) as [Hloop Hres].
  apply in_bounds_bind; [exact Hloop|]. intros [i' s'] Hrun.
  destruct (Hres i' s' Hrun) as [_ Hs'].
  apply in_bounds_bind; [apply final_loop_in_bounds; exact Hs'|].
  intros [ts' s''] _. apply in_bounds_Ok.
Qed.

Lemma exact_wcrt_in_bounds (fuel : nat) (ts : tskset) (sbf sbf_inv : Z -> Z) :
  ts <> [] -> in_bounds (exact_wcrt fuel ts sbf sbf_inv).
Proof.
  intros Hne. unfold exact_wcrt.
  apply in_bounds_bind; [apply utilization_in_bounds|]. intros u _.
  destruct (exceeds_one u); [apply in_bounds_Ok|].
  set (sorted := sort_by_deadline ts).
  assert (Hlen : (0 < length sorted)%nat).
  { unfold sorted. rewrite sort_by_deadline_length.
    destruct ts; [congruence|simpl; lia]. }
  assert (Hsne : sorted <> []) by (intros E; rewrite E in Hlen; simpl in Hlen; lia).
  apply in_bounds_bind; [apply index_in_bounds; exact Hlen|]. intros first _.
  destruct (delta_values_in_bounds fuel sorted sbf Hsne) as [Hdv Hgen].
  apply in_bounds_bind; [exact Hdv|]. intros g Hg.
  destruct (exact_loop_in_bounds fuel sorted sbf_inv g (Hgen g Hg) 0
              (replicate (length sorted) PosInf) Hlen
              (length_replicate _ _)) as [Hloop Hres].
  apply in_bounds_bind; [exact Hloop|]. intros [i' s'] Hrun.
  destruct (Hres i' s' Hrun) as [_ Hs'].
  apply in_bounds_bind; [apply final_loop_in_bounds; exact Hs'|].
  intros [ts' s''] _. apply in_bounds_Ok.
Qed.

(** C10. On the empty task set both solvers pass the guard and fail with
    [IndexError] at [tskset[0]]; [find_L] and [delta_values], called on the
    empty set, fail with [ValueError] at [max] of an empty sequence.  On a
    non-empty task set no access of the solvers ([tskset[0]], [tskset[i+1]],
    [s[i]], [s[i-1]], [max], [min]) fails: the only exception left is the
    division by a zero period or deadline. *)
Theorem solvers_need_nonempty_task_set (fuel : nat) (ts : tskset)
    (sbf sbf_inv : Z -> Z) :
  (ts = [] ->
   approx_wcrt fuel ts sbf sbf_inv = Raise IndexError
   /\ exact_wcrt fuel ts sbf sbf_inv = Raise IndexError
   /\ find_L (S fuel) ts sbf_uniprocessor = Raise ValueError
   /\ delta_values (S fuel) ts sbf_uniprocessor = Raise ValueError)
  /\ (ts <> [] ->
      in_bounds (approx_wcrt fuel ts sbf sbf_inv)
      /\ in_bounds (exact_wcrt fuel ts sbf sbf_inv)).
Proof.
  split.
  - intros ->. repeat split.
  - intros Hne. split;
      [apply approx_wcrt_in_bounds|apply exact_wcrt_in_bounds]; exact Hne.
Qed.

Lemma solvers_need_nonempty_task_set_witness :
  (approx_wcrt 10 [] sbf_uniprocessor sbf_inverse_uniprocessor
   = Raise IndexError
   /\ exact_wcrt 10 [] sbf_uniprocessor sbf_inverse_uniprocessor
      = Raise IndexError
   /\ find_L 11 [] sbf_uniprocessor = Raise ValueError
   /\ delta_values 11 [] sbf_uniprocessor = Raise ValueError)
  /\ (in_bounds (approx_wcrt 10 [task_A; task_B] sbf_uniprocessor
                   sbf_inverse_uniprocessor)
      /\ in_bounds (exact_wcrt 10 [task_A; task_B] sbf_uniprocessor
                      sbf_inverse_uniprocessor)).
Proof.
  split.
  - apply (solvers_need_nonempty_task_set 10 [] sbf_uniprocessor
             sbf_inverse_uniprocessor). reflexivity.
  - apply (solvers_need_nonempty_task_set 10 [task_A; task_B] sbf_uniprocessor
             sbf_inverse_uniprocessor). discriminate.
Defined.

(** ** The test points *)

Lemma fold_left_min_spec (r : list Z) :
  forall x, is_minimum (x :: r) (fold_left Z.min r x).
Proof.
  induction r as [|y r IH]; intros x; simpl.
  - split; [left; reflexivity|]. intros z [<-|[]]. lia.
  - destruct (IH (Z.min x y)) as [Hin Hle]. split.
    + destruct Hin as [Hm|Hin]; [|right; right; exact Hin].
      rewrite <- Hm.
      destruct (Z.min_spec x y) as [[_ E]|[_ E]]; [left|right; left]; lia.
    + intros z Hz. pose proof (Hle (Z.min x y) (or_introl eq_refl)) as H0.
      destruct Hz as [<-|[<-|Hz]]; [lia|lia|].
      apply Hle. right. exact Hz.
Qed.

Lemma fold_left_max_spec (r : list Z) :
  forall x, is_maximum (x :: r) (fold_left Z.max r x).
Proof.
  induction r as [|y r IH]; intros x; simpl.
  - split; [left; reflexivity|]. intros z [<-|[]]. lia.
  - destruct (IH (Z.max x y)) as [Hin Hle]. split.
    + destruct Hin as [Hm|Hin]; [|right; right; exact Hin].
      rewrite <- Hm.
      destruct (Z.max_spec x y) as [[_ E]|[_ E]]; [right; left|left]; lia.
    + intros z Hz. pose proof (Hle (Z.max x y) (or_introl eq_refl)) as H0.
      destruct Hz as [<-|[<-|Hz]]; [lia|lia|].
      apply Hle. right. exact Hz.
Qed.

Lemma py_min_spec (l : list Z) :
  l <> [] -> exists m, py_min l = Ok m /\ is_minimum l m.
Proof.
  destruct l as [|x r]; [congruence|]. intros _.
  eexists. split; [reflexivity|apply fold_left_min_spec].
Qed.

Lemma py_max_spec (l : list Z) :
  l <> [] -> exists m, py_max l = Ok m /\ is_maximum l m.
Proof.
  destruct l as [|x r]; [congruence|]. intros _.
  eexists. split; [reflexivity|apply fold_left_max_spec].
Qed.

(** With non-zero deadlines the inner scan of [delta_values] raises nothing
    and answers whether [delta] is a multiple of some deadline. *)
Lemma is_test_point_spec (ts : tskset) (delta : Z) :
  Forall (fun tsk => 0 < deadline tsk) ts ->
  exists b, is_test_point ts delta = Ok b
            /\ (b = true <-> multiple_of_a_deadline ts delta).
Proof.
  induction 1 as [|tsk rest HD _ IH]; simpl.
  - exists false. split; [reflexivity|]. split; [discriminate|].
    intros (t & [] & _).
  - destruct (Z.eqb_spec (deadline tsk) 0); [lia|].
    destruct (Z.eqb_spec (delta mod deadline tsk) 0) as [Hm|Hm].
    + exists true. split; [reflexivity|]. split; [|reflexivity].
      intros _. exists tsk. split; [left; reflexivity|exact Hm].
    + destruct IH as (b & -> & Hb). exists b. split; [reflexivity|].
      rewrite Hb. split.
      * intros (t & Ht & Hmod). exists t. split; [right; exact Ht|exact Hmod].
      * intros (t & [<-|Ht] & Hmod); [congruence|]. exists t. auto.
Qed.

(** The [while delta <= L] loop visits [delta0], ..., [delta0 + n - 1] in
    order and yields exactly the multiples of a deadline among them. *)
Lemma delta_loop_spec (ts : tskset) (n : nat) :
  Forall (fun tsk => 0 < deadline tsk) ts ->
  forall delta0,
    exhausts (delta_loop ts n delta0)
    /\ StronglySorted Z.lt (yielded (delta_loop ts n delta0))
    /\ (forall delta,
          In delta (yielded (delta_loop ts n delta0))
          <-> delta0 <= delta < delta0 + Z.of_nat n
              /\ multiple_of_a_deadline ts delta).
Proof.
  intros HD. induction n as [|n IH]; intros delta0.
  - simpl. split; [exact I|]. split; [constructor|].
    intros delta. split; [intros []|lia].
  - cbn [delta_loop].
    destruct (is_test_point_spec ts delta0 HD) as (b & -> & Hb).
    destruct (IH (delta0 + 1)) as (Hex & Hsorted & Hin).
    destruct b; cbn [yielded exhausts].
    + split; [exact Hex|]. split.
      * constructor; [exact Hsorted|].
        apply Forall_forall. intros x Hx.
        apply list_elem_of_In, Hin in Hx. lia.
      * intros delta. split.
        -- intros [<-|Hd].
           ++ split; [lia|]. apply Hb. reflexivity.
           ++ apply Hin in Hd. split; [lia|tauto].
        -- intros [Hr Hm].
           destruct (Z.eq_dec delta delta0) as [->|Hne]; [left; reflexivity|].
           right. apply Hin. split; [lia|exact Hm].
    + split; [exact Hex|]. split; [exact Hsorted|].
      intros delta. rewrite Hin. split.
      * intros [Hr Hm]. split; [lia|exact Hm].
      * intros [Hr Hm]. split; [|exact Hm].
        destruct (Z.eq_dec delta delta0) as [->|Hne]; [|lia].
        apply Hb in Hm. discriminate.
Qed.

Lemma strictly_increasing_NoDup (l : list Z) :
  StronglySorted Z.lt l -> NoDup l.
Proof.
  induction 1 as [|x l _ IH Hall]; constructor; [|exact IH].
  intros Hin. rewrite Forall_forall in Hall.
  specialize (Hall x Hin). lia.
Qed.

(** C8. For a non-empty task set with positive deadlines on which [find_L]
    returns [L], [delta_values] produces a finite sequence that ends without
    exception, is strictly increasing, holds no value twice, and contains
    exactly the integers [delta] with [min(D_i) <= delta <= L] that are a
    multiple of some deadline; and [L] is [find_L_prime] plus [max(D_i)]. *)
Theorem delta_values_spec (fuel : nat) (ts : tskset) (sbf : Z -> Z) (L : Z) :
  ts <> [] ->
  Forall (fun tsk => 0 < deadline tsk) ts ->
  find_L fuel ts sbf = Ok L ->
  exists g dmin dmax L',
    delta_values fuel ts sbf = Ok g
    /\ is_minimum (map deadline ts) dmin
    /\ is_maximum (map deadline ts) dmax
    /\ find_L_prime fuel ts sbf = Ok L' /\ L = L' + dmax
    /\ exhausts g
    /\ StronglySorted Z.lt (yielded g)
    /\ NoDup (yielded g)
    /\ (forall delta,
          In delta (yielded g)
          <-> dmin <= delta <= L /\ multiple_of_a_deadline ts delta).
Proof.
  intros Hne HD HL.
  assert (Hmne : map deadline ts <> []).
  { destruct ts; [congruence|discriminate]. }
  destruct (py_min_spec _ Hmne) as (dmin & Hmin & Hdmin).
  destruct (py_max_spec _ Hmne) as (dmax & Hmax & Hdmax).
  unfold delta_values. rewrite HL, Hmin. cbn [bind].
  unfold find_L in HL. inv_bind HL. rewrite Hmax in HL. cbn [bind] in HL.
  injection HL as <-. rename a into L'.
  destruct (delta_loop_spec ts (Z.to_nat (L' + dmax + 1 - dmin)) HD dmin)
    as (Hex & Hsorted & Hin).
  exists (delta_loop ts (Z.to_nat (L' + dmax + 1 - dmin)) dmin), dmin, dmax, L'.
  repeat (split; [first [reflexivity|assumption
                         |apply strictly_increasing_NoDup; assumption]|]).
  intros delta. rewrite Hin. split; intros [Hr Hm]; (split; [lia|exact Hm]).
Qed.

Lemma delta_values_spec_witness :
  exists g dmin dmax L',
    delta_values 10 [task_A; task_B] sbf_uniprocessor = Ok g
    /\ is_minimum (map deadline [task_A; task_B]) dmin
    /\ is_maximum (map deadline [task_A; task_B]) dmax
    /\ find_L_prime 10 [task_A; task_B] sbf_uniprocessor = Ok L'
    /\ 9 = L' + dmax
    /\ exhausts g
    /\ StronglySorted Z.lt (yielded g)
    /\ NoDup (yielded g)
    /\ (forall delta,
          In delta (yielded g)
          <-> dmin <= delta <= 9
              /\ multiple_of_a_deadline [task_A; task_B] delta).
Proof.
  apply (delta_values_spec 10 [task_A; task_B] sbf_uniprocessor 9).
  - discriminate.
  - repeat constructor.
  - reflexivity.
Defined.

(** ** The last task in the test-point loops *)

(** From a pointer [i] at or below the last index: a loop entered at the last
    index changes nothing; a loop entered below it either leaves [s[last]] as
    it was, or stopped right after the one iteration that advanced the
    pointer to the last index and updated [s[last]] there. *)
Lemma approx_loop_last (ts : tskset) (sbf_inv : Z -> Z) (g : gen) :
  forall i s i' s',
    (i <= length ts - 1)%nat ->
    approx_loop ts sbf_inv g i s = Ok (i', s') ->
    (i = (length ts - 1)%nat -> i' = i /\ s' = s)
    /\ ((i < length ts - 1)%nat ->
        s' !! (length ts - 1)%nat = s !! (length ts - 1)%nat
        \/ exists delta d sl tl,
            In delta (yielded g)
            /\ ts !! (length ts - 1)%nat = Some tl /\ deadline tl <= delta
            /\ dbf ts delta = Ok d
            /\ s !! (length ts - 1)%nat = Some sl
            /\ s' !! (length ts - 1)%nat
               = Some (num_min sl (Int (delta - sbf_inv d)))).
Proof.
  induction g as [|delta rest IH|e]; intros i s i' s' Hi H;
    cbn [approx_loop] in H.
  - injection H as <- <-. split; [auto|]. intros _. left. reflexivity.
  - destruct (Z.leb_spec (Z.of_nat (length ts) - 1) (Z.of_nat i)) as [Hb|Hb].
    { injection H as <- <-. split; [auto|]. intros; lia. }
    split; [intros; lia|]. intros Hlt.
    inv_bind H. rename a into nxt. apply index_Ok in Ha.
    set (i1 := if deadline nxt <=? delta then (i + 1)%nat else i) in H.
    inv_bind H. rename a into si, Ha0 into Hsi. apply index_Ok in Hsi.
    inv_bind H. rename a into d, Ha0 into Hd.
    assert (Hi1 : (i1 <= length ts - 1)%nat).
    { unfold i1. destruct (deadline nxt <=? delta); lia. }
    destruct (IH _ _ _ _ Hi1 H) as [Hlast Hbelow].
    destruct (Nat.eq_dec i1 (length ts - 1)%nat) as [E|E].
    + destruct (Hlast E) as [_ ->]. right.
      assert (Hadv : deadline nxt <= delta /\ (i + 1 = length ts - 1)%nat).
      { unfold i1 in E. destruct (Z.leb_spec (deadline nxt) delta); lia. }
      destruct Hadv as [Hdl Hi'].
      exists delta, d, si, nxt. rewrite <- E.
      split; [left; reflexivity|].
      split; [rewrite E, <- Hi'; exact Ha|].
      split; [exact Hdl|]. split; [exact Hd|]. split; [exact Hsi|].
      apply list_lookup_insert_eq. apply lookup_lt_Some in Hsi. exact Hsi.
    + assert (Hkeep : <[i1:=num_min si (Int (delta - sbf_inv d))]> s
                      !! (length ts - 1)%nat = s !! (length ts - 1)%nat).
      { apply list_lookup_insert_ne. exact E. }
      destruct (Hbelow ltac:(lia)) as [Hsame|Hupd].
      * left. rewrite Hsame. exact Hkeep.
      * right. destruct Hupd as (delta' & d' & sl & tl & Hin & Htl & Hdl & Hd' & Hsl & Hs').
        exists delta', d', sl, tl.
        split; [right; exact Hin|]. rewrite <- Hkeep. auto.
  - discriminate.
Qed.

Lemma exact_loop_last (fuel : nat) (ts : tskset) (sbf_inv : Z -> Z) (g : gen) :
  forall i s i' s',
    (i <= length ts - 1)%nat ->
    exact_loop fuel ts sbf_inv g i s = Ok (i', s') ->
    (i = (length ts - 1)%nat -> i' = i /\ s' = s)
    /\ ((i < length ts - 1)%nat ->
        s' !! (length ts - 1)%nat = s !! (length ts - 1)%nat
        \/ exists delta m0 gamma sl tl,
            In delta (yielded g)
            /\ ts !! (length ts - 1)%nat = Some tl /\ deadline tl <= delta
            /\ mbf ts delta 0 = Ok m0
            /\ gamma_loop fuel ts sbf_inv delta 0 (sbf_inv m0) = Ok gamma
            /\ s !! (length ts - 1)%nat = Some sl
            /\ s' !! (length ts - 1)%nat
               = Some (num_min sl (Int (delta - gamma)))).
Proof.
  induction g as [|delta rest IH|e]; intros i s i' s' Hi H;
    cbn [exact_loop] in H.
  - injection H as <- <-. split; [auto|]. intros _. left. reflexivity.
  - destruct (Z.leb_spec (Z.of_nat (length ts) - 1) (Z.of_nat i)) as [Hb|Hb].
    { injection H as <- <-. split; [auto|]. intros; lia. }
    split; [intros; lia|]. intros Hlt.
    inv_bind H. rename a into nxt. apply index_Ok in Ha.
    set (i1 := if deadline nxt <=? delta then (i + 1)%nat else i) in H.
    inv_bind H. rename a into d, Ha0 into Hd.
    inv_bind H. rename a into si, Ha0 into Hsi.
    assert (Hi1 : (i1 <= length ts - 1)%nat).
    { unfold i1. destruct (deadline nxt <=? delta); lia. }
    destruct (num_ltb (Int (delta - sbf_inv d)) si).
    + inv_bind H. rename a into m0, Ha0 into Hm0.
      inv_bind H. rename a into gamma, Ha0 into Hgamma.
      rewrite Hsi in H. cbn [bind] in H. apply index_Ok in Hsi.
      destruct (IH _ _ _ _ Hi1 H) as [Hlast Hbelow].
      destruct (Nat.eq_dec i1 (length ts - 1)%nat) as [E|E].
      * destruct (Hlast E) as [_ ->]. right.
        assert (Hadv : deadline nxt <= delta /\ (i + 1 = length ts - 1)%nat).
        { unfold i1 in E. destruct (Z.leb_spec (deadline nxt) delta); lia. }
        destruct Hadv as [Hdl Hi'].
        exists delta, m0, gamma, si, nxt. rewrite <- E.
        split; [left; reflexivity|].
        split; [rewrite E, <- Hi'; exact Ha|].
        split; [exact Hdl|]. split; [exact Hm0|]. split; [exact Hgamma|].
        split; [exact Hsi|].
        apply list_lookup_insert_eq. apply lookup_lt_Some in Hsi. exact Hsi.
      * assert (Hkeep : <[i1:=num_min si (Int (delta - gamma))]> s
                        !! (length ts - 1)%nat = s !! (length ts - 1)%nat).
        { apply list_lookup_insert_ne. exact E. }
        destruct (Hbelow ltac:(lia)) as [Hsame|Hupd].
        -- left. rewrite Hsame. exact Hkeep.
        -- right.
           destruct Hupd as (delta' & m' & g' & sl & tl & Hin & Htl & Hdl
                             & Hm' & Hg' & Hsl & Hs').
           exists delta', m', g', sl, tl.
           split; [right; exact Hin|]. rewrite <- Hkeep. auto 10.
    + destruct (IH _ _ _ _ Hi1 H) as [Hlast Hbelow].
      destruct (Nat.eq_dec i1 (length ts - 1)%nat) as [E|E].
      * destruct (Hlast E) as [_ ->]. left. reflexivity.
      * destruct (Hbelow ltac:(lia)) as [Hsame|Hupd]; [left; exact Hsame|].
        right.
        destruct Hupd as (delta' & m' & g' & sl & tl & Hin & Htl & Hdl
                          & Hm' & Hg' & Hsl & Hs').
        exists delta', m', g', sl, tl.
        split; [right; exact Hin|]. auto 10.
  - discriminate.
Qed.




(** ** Exact against approximate *)

Lemma num_min_glb (x a b : num) :
  num_le x a -> num_le x b -> num_le x (num_min a b).
Proof. intros Ha Hb. destruct (num_min_cases a b) as [-> | ->]; assumption. Qed.

Lemma num_le_Int (a b : Z) : num_le (Int a) (Int b) <-> a <= b.
Proof. unfold num_le; simpl. rewrite Z.ltb_ge. reflexivity. Qed.

Lemma num_rsub_antitone (d : Z) (a b : num) :
  num_le a b -> num_le (num_rsub d b) (num_rsub d a).
Proof.
  unfold num_le. destruct a, b; simpl; try congruence; try reflexivity.
  rewrite !Z.ltb_ge. lia.
Qed.

Lemma dbf_i_nonneg (tsk : task) (t x : Z) : dbf_i tsk t = Ok x -> 0 <= x.
Proof.
  unfold dbf_i. destruct (t <=? 0); [intros [= <-]; lia|].
  destruct (period tsk =? 0); [discriminate|]. intros [= <-]. lia.
Qed.

Lemma rbf_i_nonneg (tsk : task) (t x : Z) : rbf_i tsk t = Ok x -> 0 <= x.
Proof.
  unfold rbf_i. destruct (t <? 0); [intros [= <-]; lia|apply dbf_i_nonneg].
Qed.

Lemma sum_loop_mono (f g : task -> res Z) (ts : tskset) :
  (forall tsk x y, f tsk = Ok x -> g tsk = Ok y -> x <= y) ->
  forall a b X Y,
    a <= b -> sum_loop f ts a = Ok X -> sum_loop g ts b = Ok Y -> X <= Y.
Proof.
  intros Hfg. induction ts as [|tsk rest IH]; intros a b X Y Hab HX HY;
    simpl in *.
  - injection HX as <-. injection HY as <-. exact Hab.
  - inv_bind HX. inv_bind HY.
    apply (IH (a + a0) (b + a1)); [|assumption|assumption].
    pose proof (Hfg tsk a0 a1 Ha Ha0). lia.
Qed.

Lemma sum_loop_nonpos (f : task -> res Z) (ts : tskset) :
  (forall tsk x, f tsk = Ok x -> x <= 0) ->
  forall a X, sum_loop f ts a = Ok X -> X <= a.
Proof.
  intros Hf. induction ts as [|tsk rest IH]; intros a X HX; simpl in *.
  - injection HX as <-. lia.
  - inv_bind HX. pose proof (Hf tsk a0 Ha). apply IH in HX. lia.
Qed.

(** The mixed bound never exceeds the demand bound at the same [delta]. *)
Lemma mbf_le_dbf (ts : tskset) (delta gamma m d : Z) :
  mbf ts delta gamma = Ok m -> dbf ts delta = Ok d -> m <= d.
Proof.
  unfold mbf, dbf. intros Hm Hd.
  destruct (Z.leb_spec delta 0) as [Hneg|Hpos].
  - injection Hd as <-. refine (sum_loop_nonpos _ ts _ 0 m Hm).
    intros tsk x Hx. unfold mbf_i in Hx. inv_bind Hx. inv_bind Hx.
    injection Hx as <-. unfold dbf_i in Ha.
    destruct (Z.leb_spec delta 0); [|lia]. injection Ha as <-. lia.
  - refine (sum_loop_mono _ _ ts _ 0 0 m d _ Hm Hd); [|lia].
    intros tsk x y Hx Hy. unfold mbf_i in Hx. rewrite Hy in Hx.
    cbn [bind] in Hx. inv_bind Hx. injection Hx as <-. lia.
Qed.

Lemma gamma_loop_le_dbf (fuel : nat) (ts : tskset) (delta d : Z) :
  dbf ts delta = Ok d ->
  forall gamma_old gamma_new gamma,
    gamma_new <= d ->
    gamma_loop fuel ts sbf_inverse_uniprocessor delta gamma_old gamma_new
    = Ok gamma ->
    gamma <= d.
Proof.
  intros Hd. induction fuel as [|fuel IH]; intros go gn gamma Hgn H;
    simpl in H; [discriminate|].
  destruct (gn =? go); [injection H as <-; exact Hgn|].
  inv_bind H. apply (IH gn (sbf_inverse_uniprocessor a) gamma); [|exact H].
  unfold sbf_inverse_uniprocessor. eapply mbf_le_dbf; eassumption.
Qed.

(** Run on the same test points from the same pointer, the exact loop keeps
    every slack bound at or above the approximate loop's. *)
Lemma loops_slack_le (fuel : nat) (ts : tskset) (g : gen) :
  forall i sa se ia sa' ie se',
    approx_loop ts sbf_inverse_uniprocessor g i sa = Ok (ia, sa') ->
    exact_loop fuel ts sbf_inverse_uniprocessor g i se = Ok (ie, se') ->
    Forall2 num_le sa se ->
    Forall2 num_le sa' se'.
Proof.
  induction g as [|delta rest IH|e]; intros i sa se ia sa' ie se' Ha He Hle;
    cbn [approx_loop exact_loop] in Ha, He.
  - injection Ha as <- <-. injection He as <- <-. exact Hle.
  - destruct (Z.of_nat (length ts) - 1 <=? Z.of_nat i).
    { injection Ha as <- <-. injection He as <- <-. exact Hle. }
    inv_bind Ha. rename a into nxt, Ha0 into Hnxt.
    rewrite Hnxt in He. cbn [bind] in He.
    set (i1 := if deadline nxt <=? delta then (i + 1)%nat else i) in *.
    inv_bind Ha. rename a into xa, Ha0 into Hxa.
    inv_bind Ha. rename a into d, Ha0 into Hd.
    rewrite Hd in He. cbn [bind] in He.
    inv_bind He. rename a into xe, Ha0 into Hxe.
    apply index_Ok in Hxa. apply index_Ok in Hxe.
    pose proof (Forall2_lookup_lr _ _ _ _ _ _ Hle Hxa Hxe) as Hx.
    change (sbf_inverse_uniprocessor d) with d in Ha, He.
    destruct (num_ltb (Int (delta - d)) xe) eqn:Hlt.
    + inv_bind He. rename a into m0, Ha0 into Hm0.
      inv_bind He. rename a into gamma, Ha0 into Hgamma.
      unfold index in He. rewrite Hxe in He. cbn [bind] in He.
      assert (Hg : gamma <= d).
      { apply (gamma_loop_le_dbf fuel ts delta d Hd _ _ _) in Hgamma;
          [exact Hgamma|].
        unfold sbf_inverse_uniprocessor. eapply mbf_le_dbf; eassumption. }
      apply (IH _ _ _ _ _ _ _ Ha He).
      apply Forall2_insert; [exact Hle|].
      apply num_min_glb.
      * eapply num_le_trans; [apply num_min_le_l|exact Hx].
      * eapply num_le_trans; [apply num_min_le_r|]. apply num_le_Int. lia.
    + apply (IH _ _ _ _ _ _ _ Ha He).
      rewrite <- (list_insert_id se i1 xe Hxe).
      apply Forall2_insert; [exact Hle|].
      eapply num_le_trans; [apply num_min_le_l|exact Hx].
  - discriminate.
Qed.

Lemma find_L_prime_loop_deterministic (ts : tskset) (sbf : Z -> Z) :
  forall f1 f2 l a b,
    find_L_prime_loop f1 ts sbf l = Ok a ->
    find_L_prime_loop f2 ts sbf l = Ok b ->
    a = b.
Proof.
  induction f1 as [|f1 IH]; intros f2 l a b H1 H2; [discriminate|].
  destruct f2 as [|f2]; [discriminate|]. simpl in H1, H2.
  inv_bind H1. rewrite Ha in H2. cbn [bind] in H2.
  destruct (a0 <=? sbf l); [congruence|]. eapply IH; eassumption.
Qed.

Lemma find_L_deterministic (ts : tskset) (sbf : Z -> Z) (f1 f2 : nat)
    (a b : Z) :
  find_L f1 ts sbf = Ok a -> find_L f2 ts sbf = Ok b -> a = b.
Proof.
  unfold find_L, find_L_prime. intros H1 H2.
  apply bind_Ok in H1 as (l1 & Hl1 & H1).
  apply bind_Ok in H2 as (l2 & Hl2 & H2).
  rewrite (find_L_prime_loop_deterministic ts sbf _ _ _ _ _ Hl1 Hl2) in H1.
  congruence.
Qed.

Lemma delta_values_deterministic (ts : tskset) (sbf : Z -> Z) (f1 f2 : nat)
    (g1 g2 : gen) :
  delta_values f1 ts sbf = Ok g1 -> delta_values f2 ts sbf = Ok g2 -> g1 = g2.
Proof.
  unfold delta_values. intros H1 H2.
  apply bind_Ok in H1 as (L1 & HL1 & H1).
  apply bind_Ok in H2 as (L2 & HL2 & H2).
  rewrite (find_L_deterministic ts sbf _ _ _ _ HL1 HL2) in H1.
  congruence.
Qed.

Lemma approx_loop_length (ts : tskset) (sbf_inv : Z -> Z) (g : gen) :
  forall i s i' s',
    approx_loop ts sbf_inv g i s = Ok (i', s') -> length s' = length s.
Proof.
  induction g as [|delta rest IH|e]; intros i s i' s' H;
    cbn [approx_loop] in H.
  - injection H as <- <-. reflexivity.
  - destruct (Z.of_nat (length ts) - 1 <=? Z.of_nat i);
      [injection H as <- <-; reflexivity|].
    inv_bind H. inv_bind H. inv_bind H.
    apply IH in H. rewrite H. apply length_insert.
  - discriminate.
Qed.

Lemma exact_loop_length (fuel : nat) (ts : tskset) (sbf_inv : Z -> Z)
    (g : gen) :
  forall i s i' s',
    exact_loop fuel ts sbf_inv g i s = Ok (i', s') -> length s' = length s.
Proof.
  induction g as [|delta rest IH|e]; intros i s i' s' H;
    cbn [exact_loop] in H.
  - injection H as <- <-. reflexivity.
  - destruct (Z.of_nat (length ts) - 1 <=? Z.of_nat i);
      [injection H as <- <-; reflexivity|].
    inv_bind H. inv_bind H. inv_bind H.
    destruct (num_ltb _ _).
    + inv_bind H. inv_bind H. inv_bind H.
      apply IH in H. rewrite H. apply length_insert.
    + apply IH in H. exact H.
  - discriminate.
Qed.

(** What a returning run of a solver went through. *)
Lemma approx_wcrt_Ok (fuel : nat) (ts : tskset) (sbf sbf_inv : Z -> Z)
    (r : retval) (ts' : tskset) :
  approx_wcrt fuel ts sbf sbf_inv = Ok (r, ts') ->
  exists u,
    utilization ts = Ok u
    /\ ((exceeds_one u = true /\ r = RetFalse /\ ts' = ts)
        \/ (exceeds_one u = false /\ r = RetNone
            /\ exists first g i s s2,
                index (sort_by_deadline ts) 0 = Ok first
                /\ delta_values fuel (sort_by_deadline ts) sbf = Ok g
                /\ approx_loop (sort_by_deadline ts) sbf_inv g 0
                     (replicate (length (sort_by_deadline ts)) PosInf)
                   = Ok (i, s)
                /\ final_loop (length (sort_by_deadline ts))
                     (sort_by_deadline ts) s = Ok (ts', s2))).
Proof.
  unfold approx_wcrt. intros H.
  apply bind_Ok in H as (u & Hu & H). exists u. split; [exact Hu|].
  destruct (exceeds_one u).
  - left. injection H as <- <-. auto.
  - right. split; [reflexivity|].
    apply bind_Ok in H as (first & Hfirst & H).
    apply bind_Ok in H as (g & Hg & H).
    apply bind_Ok in H as ([i s] & Hloop & H).
    apply bind_Ok in H as ([tsf s2] & Hfin & H).
    injection H as <- <-. split; [reflexivity|].
    exists first, g, i, s, s2. auto.
Qed.

Lemma exact_wcrt_Ok (fuel : nat) (ts : tskset) (sbf sbf_inv : Z -> Z)
    (r : retval) (ts' : tskset) :
  exact_wcrt fuel ts sbf sbf_inv = Ok (r, ts') ->
  exists u,
    utilization ts = Ok u
    /\ ((exceeds_one u = true /\ r = RetFalse /\ ts' = ts)
        \/ (exceeds_one u = false /\ r = RetNone
            /\ exists first g i s s2,
                index (sort_by_deadline ts) 0 = Ok first
                /\ delta_values fuel (sort_by_deadline ts) sbf = Ok g
                /\ exact_loop fuel (sort_by_deadline ts) sbf_inv g 0
                     (replicate (length (sort_by_deadline ts)) PosInf)
                   = Ok (i, s)
                /\ final_loop (length (sort_by_deadline ts))
                     (sort_by_deadline ts) s = Ok (ts', s2))).
Proof.
  unfold exact_wcrt. intros H.
  apply bind_Ok in H as (u & Hu & H). exists u. split; [exact Hu|].
  destruct (exceeds_one u).
  - left. injection H as <- <-. auto.
  - right. split; [reflexivity|].
    apply bind_Ok in H as (first & Hfirst & H).
    apply bind_Ok in H as (g & Hg & H).
    apply bind_Ok in H as ([i s] & Hloop & H).
    apply bind_Ok in H as ([tsf s2] & Hfin & H).
    injection H as <- <-. split; [reflexivity|].
    exists first, g, i, s, s2. auto.
Qed.

Lemma is_min_from_mono (sa se : list num) (i : nat) (ma me : num) :
  Forall2 num_le sa se ->
  is_min_from sa i ma -> is_min_from se i me -> num_le ma me.
Proof.
  intros Hle [_ Hlow] [(j & Hj & Hme) _].
  destruct (Forall2_lookup_r _ _ _ _ _ Hle Hme) as (x & Hx & Hxm).
  eapply num_le_trans; [apply (Hlow j x Hj Hx)|exact Hxm].
Qed.

(** Finalizing the same task set from pointwise ordered slack arrays gives
    pointwise ordered response times. *)
Lemma final_loop_no_looser (ts tsa tse : tskset) (sa se sa2 se2 : list num) :
  length sa = length ts -> Forall2 num_le sa se ->
  final_loop (length ts) ts sa = Ok (tsa, sa2) ->
  final_loop (length ts) ts se = Ok (tse, se2) ->
  Forall2 no_looser tse tsa.
Proof.
  intros Hla Hle Ha He.
  assert (Hlse : length se = length ts).
  { rewrite <- Hla. symmetry. eapply Forall2_length. exact Hle. }
  destruct (final_loop_result ts sa Hla) as (tsa' & sa' & Ha' & Hlena & Hra).
  destruct (final_loop_result ts se Hlse) as (tse' & se' & He' & Hlene & Hre).
  rewrite Ha in Ha'. injection Ha' as <- <-.
  rewrite He in He'. injection He' as <- <-.
  apply Forall2_same_length_lookup_2; [congruence|].
  intros i x y Hx Hy.
  assert (Hi : (i < length ts)%nat).
  { apply lookup_lt_Some in Hx. lia. }
  destruct (lookup_lt_is_Some_2 ts i Hi) as [tsk Htsk].
  destruct (Hra i tsk Htsk) as (ma & Hma & _ & Hya).
  destruct (Hre i tsk Htsk) as (me & Hme & _ & Hxe).
  rewrite Hx in Hxe. rewrite Hy in Hya.
  injection Hxe as ->. injection Hya as ->.
  unfold no_looser; simpl. repeat split.
  eexists _, _. split; [reflexivity|]. split; [reflexivity|].
  apply num_rsub_antitone. eapply is_min_from_mono; eassumption.
Qed.

(** C4. For a task set with utilization at most 1 on which both analyses
    return (under the uniprocessor supply model), [exact_wcrt] and
    [approx_wcrt] leave the same tasks in the same order, and the response
    time [exact_wcrt] writes to each task is at most the one [approx_wcrt]
    writes to it. *)
Theorem exact_no_looser_than_approx (fa fe : nat) (ts tsa tse : tskset)
    (u : Q) (ra re : retval) :
  utilization ts = Ok u -> (u <= 1)%Q ->
  approx_wcrt fa ts sbf_uniprocessor sbf_inverse_uniprocessor = Ok (ra, tsa) ->
  exact_wcrt fe ts sbf_uniprocessor sbf_inverse_uniprocessor = Ok (re, tse) ->
  Forall2 no_looser tse tsa.
Proof.
  intros Hu Hle Ha He. apply exceeds_one_false in Hle.
  destruct (approx_wcrt_Ok _ _ _ _ _ _ Ha) as (u1 & Hu1 & Hca).
  destruct (exact_wcrt_Ok _ _ _ _ _ _ He) as (u2 & Hu2 & Hce).
  rewrite Hu in Hu1, Hu2. injection Hu1 as <-. injection Hu2 as <-.
  destruct Hca
    as [(Hx & _)|(_ & _ & _ & ga & ia & sa & sa2 & _ & Hga & Hla & Hfa)];
    [congruence|].
  destruct Hce
    as [(Hx & _)|(_ & _ & _ & ge & ie & se & se2 & _ & Hge & Hlpe & Hfe)];
    [congruence|].
  rewrite (delta_values_deterministic _ _ _ _ _ _ Hge Hga) in Hlpe.
  eapply final_loop_no_looser; [| |exact Hfa|exact Hfe].
  - rewrite (approx_loop_length _ _ _ _ _ _ _ Hla). apply length_replicate.
  - eapply loops_slack_le; [exact Hla|exact Hlpe|].
    apply Forall2_same_length_lookup_2; [reflexivity|].
    intros i x y Hx Hy. rewrite Hx in Hy. injection Hy as <-.
    apply num_le_refl.
Qed.

Lemma exact_no_looser_than_approx_witness :
  Forall2 no_looser
    [mkTask 1 4 2 (Some (Int 1)); mkTask 2 6 5 (Some (Int 3));
     mkTask 3 20 15 (Some (Int 10))]
    [mkTask 1 4 2 (Some (Int 1)); mkTask 2 6 5 (Some (Int 3));
     mkTask 3 20 15 (Some (Int 11))].
Proof.
  eapply (exact_no_looser_than_approx 40 40
            [mkTask 1 4 2 None; mkTask 2 6 5 None; mkTask 3 20 15 None]).
  - reflexivity.
  - unfold Qle; simpl. lia.
  - reflexivity.
  - reflexivity.
Defined.

(** ** Re-analysis *)

(** *** Sorting *)

Lemma insert_by_deadline_sorted (tsk : task) (ts : tskset) :
  deadline_sorted ts -> deadline_sorted (insert_by_deadline tsk ts).
Proof.
  unfold deadline_sorted. induction ts as [|hd tl IH]; intros Hs; simpl.
  - repeat constructor.
  - destruct (Z.leb_spec (deadline tsk) (deadline hd)) as [Hle|Hgt]; simpl.
    + constructor; [exact Hs|]. constructor. exact Hle.
    + inversion Hs as [|? ? Htl Hhd]; subst.
      constructor; [apply IH; exact Htl|].
      destruct tl as [|hd2 tl2]; simpl.
      * constructor. lia.
      * destruct (Z.leb_spec (deadline tsk) (deadline hd2)); simpl.
        -- constructor. lia.
        -- inversion Hhd; subst. constructor. assumption.
Qed.

Lemma sort_by_deadline_sorted (ts : tskset) :
  deadline_sorted (sort_by_deadline ts).
Proof.
  induction ts as [|tsk rest IH]; simpl.
  - constructor.
  - apply insert_by_deadline_sorted. exact IH.
Qed.

Lemma sort_by_deadline_fixes_sorted (ts : tskset) :
  deadline_sorted ts -> sort_by_deadline ts = ts.
Proof.
  unfold deadline_sorted. induction ts as [|tsk rest IH]; intros Hs; simpl;
    [reflexivity|].
  inversion Hs as [|? ? Hrest Hhd]; subst. rewrite (IH Hrest).
  destruct rest as [|hd tl]; simpl; [reflexivity|].
  inversion Hhd; subst.
  destruct (Z.leb_spec (deadline tsk) (deadline hd)); [reflexivity|lia].
Qed.

(** *** The analysis reads cost, period and deadline only *)

Lemma lookup_map_erase (ts : tskset) :
  forall j, map erase ts !! j = erase <$> (ts !! j).
Proof.
  induction ts as [|tsk rest IH]; intros [|j]; simpl; auto.
Qed.

Lemma length_map_erase (ts : tskset) : length (map erase ts) = length ts.
Proof. induction ts; simpl; congruence. Qed.

Lemma deadlines_erase (ts : tskset) :
  map deadline (map erase ts) = map deadline ts.
Proof. induction ts; simpl; congruence. Qed.

Lemma sum_loop_erase (f : task -> res Z) (ts : tskset) :
  (forall tsk, f (erase tsk) = f tsk) ->
  forall acc, sum_loop f (map erase ts) acc = sum_loop f ts acc.
Proof.
  intros Hf. induction ts as [|tsk rest IH]; intros acc; simpl;
    [reflexivity|].
  rewrite Hf. destruct (f tsk); simpl; auto.
Qed.

Lemma dbf_erase (ts : tskset) (t : Z) : dbf (map erase ts) t = dbf ts t.
Proof.
  unfold dbf. destruct (t <=? 0); [reflexivity|].
  apply sum_loop_erase. reflexivity.
Qed.

Lemma rbf_erase (ts : tskset) (t : Z) : rbf (map erase ts) t = rbf ts t.
Proof.
  unfold rbf. destruct (t <? 0); [reflexivity|].
  apply sum_loop_erase. reflexivity.
Qed.

Lemma mbf_erase (ts : tskset) (delta gamma : Z) :
  mbf (map erase ts) delta gamma = mbf ts delta gamma.
Proof. unfold mbf. apply sum_loop_erase. reflexivity. Qed.

Lemma utilization_erase (ts : tskset) :
  utilization (map erase ts) = utilization ts.
Proof.
  induction ts as [|tsk rest IH]; simpl; [reflexivity|].
  rewrite IH. reflexivity.
Qed.

Lemma is_test_point_erase (ts : tskset) (delta : Z) :
  is_test_point (map erase ts) delta = is_test_point ts delta.
Proof.
  induction ts as [|tsk rest IH]; simpl; [reflexivity|].
  rewrite IH. reflexivity.
Qed.

Lemma find_L_prime_loop_erase (fuel : nat) (ts : tskset) (sbf : Z -> Z) :
  forall l,
    find_L_prime_loop fuel (map erase ts) sbf l
    = find_L_prime_loop fuel ts sbf l.
Proof.
  induction fuel as [|fuel IH]; intros l; simpl; [reflexivity|].
  rewrite rbf_erase. destruct (rbf ts l); simpl; [|reflexivity|reflexivity].
  rewrite IH. reflexivity.
Qed.

Lemma delta_loop_erase (ts : tskset) (n : nat) :
  forall delta, delta_loop (map erase ts) n delta = delta_loop ts n delta.
Proof.
  induction n as [|n IH]; intros delta; simpl; [reflexivity|].
  rewrite is_test_point_erase, !IH. reflexivity.
Qed.

Lemma delta_values_erase (fuel : nat) (ts : tskset) (sbf : Z -> Z) :
  delta_values fuel (map erase ts) sbf = delta_values fuel ts sbf.
Proof.
  unfold delta_values, find_L, find_L_prime.
  rewrite find_L_prime_loop_erase, deadlines_erase.
  destruct (find_L_prime_loop fuel ts sbf 0); simpl; [|reflexivity..].
  destruct (py_max (map deadline ts)); simpl; [|reflexivity..].
  destruct (py_min (map deadline ts)); simpl; [|reflexivity..].
  rewrite delta_loop_erase. reflexivity.
Qed.

Lemma gamma_loop_erase (fuel : nat) (ts : tskset) (sbf_inv : Z -> Z)
    (delta : Z) :
  forall gamma_old gamma_new,
    gamma_loop fuel (map erase ts) sbf_inv delta gamma_old gamma_new
    = gamma_loop fuel ts sbf_inv delta gamma_old gamma_new.
Proof.
  induction fuel as [|fuel IH]; intros go gn; simpl; [reflexivity|].
  rewrite mbf_erase. destruct (gn =? go); [reflexivity|].
  destruct (mbf ts delta gn); simpl; auto.
Qed.


Lemma approx_loop_erase (ts : tskset) (sbf_inv : Z -> Z) (g : gen) :
  forall i s,
    approx_loop (map erase ts) sbf_inv g i s = approx_loop ts sbf_inv g i s.
Proof.
  induction g as [|delta rest IH|e]; intros i s; cbn [approx_loop];
    [reflexivity| |reflexivity].
  rewrite length_map_erase, dbf_erase.
  destruct (Z.of_nat (length ts) - 1 <=? Z.of_nat i); [reflexivity|].
  unfold index at 1 3. rewrite lookup_map_erase.
  destruct (ts !! (i + 1)%nat) as [nxt|]; [|reflexivity].
  cbn [fmap option_fmap option_map bind erase deadline].
  destruct (index s _) as [si| |]; [|reflexivity..]. cbn [bind].
  destruct (dbf ts delta) as [d| |]; [|reflexivity..]. cbn [bind].
  apply IH.
Qed.

Lemma exact_loop_erase (fuel : nat) (ts : tskset) (sbf_inv : Z -> Z)
    (g : gen) :
  forall i s,
    exact_loop fuel (map erase ts) sbf_inv g i s
    = exact_loop fuel ts sbf_inv g i s.
Proof.
  induction g as [|delta rest IH|e]; intros i s; cbn [exact_loop];
    [reflexivity| |reflexivity].
  rewrite length_map_erase, dbf_erase, mbf_erase.
  destruct (Z.of_nat (length ts) - 1 <=? Z.of_nat i); [reflexivity|].
  unfold index at 1 4. rewrite lookup_map_erase.
  destruct (ts !! (i + 1)%nat) as [nxt|]; [|reflexivity].
  cbn [fmap option_fmap option_map bind erase deadline].
  destruct (dbf ts delta) as [d| |]; [|reflexivity..]. cbn [bind].
  destruct (index s _) as [si| |]; [|reflexivity..]. cbn [bind].
  destruct (num_ltb _ _); [|apply IH].
  destruct (mbf ts delta 0) as [m0| |]; [|reflexivity..]. cbn [bind].
  rewrite gamma_loop_erase.
  destruct (gamma_loop _ _ _ _ _ _) as [gamma| |]; [|reflexivity..].
  cbn [bind]. apply IH.
Qed.

(** *** Utilization of the sorted set *)

Lemma exceeds_one_Qeq (u u' : Q) :
  (u == u')%Q -> exceeds_one u = exceeds_one u'.
Proof.
  intros E. unfold exceeds_one. f_equal.
  destruct (Qle_bool u 1) eqn:H1, (Qle_bool u' 1) eqn:H2; try reflexivity.
  - apply Qle_bool_iff in H1. rewrite E in H1. apply Qle_bool_iff in H1.
    congruence.
  - apply Qle_bool_iff in H2. rewrite <- E in H2. apply Qle_bool_iff in H2.
    congruence.
Qed.

Lemma utilization_insert (tsk : task) (ts : tskset) (u : Q) :
  utilization (tsk :: ts) = Ok u ->
  exists u', utilization (insert_by_deadline tsk ts) = Ok u' /\ (u' == u)%Q.
Proof.
  revert u. induction ts as [|hd tl IH]; intros u Hu.
  - exists u. split; [exact Hu|reflexivity].
  - cbn [insert_by_deadline].
    destruct (deadline tsk <=? deadline hd).
    { exists u. split; [exact Hu|reflexivity]. }
    cbn [utilization] in Hu |- *.
    destruct (period tsk =? 0) eqn:Et; [discriminate|].
    destruct (period hd =? 0); [discriminate|].
    apply bind_Ok in Hu as (v & Hv & Hu). injection Hu as <-.
    apply bind_Ok in Hv as (w & Hw & Hv). injection Hv as <-.
    destruct (IH (inject_Z (cost tsk) / inject_Z (period tsk) + w)%Q)
      as (u' & -> & Hu').
    { cbn [utilization]. rewrite Et, Hw. reflexivity. }
    cbn [bind]. eexists. split; [reflexivity|]. rewrite Hu'. ring.
Qed.

Lemma utilization_sort (ts : tskset) (u : Q) :
  utilization ts = Ok u ->
  exists u', utilization (sort_by_deadline ts) = Ok u' /\ (u' == u)%Q.
Proof.
  revert u. induction ts as [|tsk rest IH]; intros u Hu.
  - exists u. split; [exact Hu|reflexivity].
  - cbn [sort_by_deadline]. cbn [utilization] in Hu.
    destruct (period tsk =? 0) eqn:Et; [discriminate|].
    apply bind_Ok in Hu as (v & Hv & Hu). injection Hu as <-.
    destruct (IH v Hv) as (v' & Hv' & Ev).
    destruct (utilization_insert tsk (sort_by_deadline rest)
                (inject_Z (cost tsk) / inject_Z (period tsk) + v')%Q)
      as (u' & Hu' & Eu).
    { cbn [utilization]. rewrite Et, Hv'. reflexivity. }
    exists u'. split; [exact Hu'|]. rewrite Eu, Ev. reflexivity.
Qed.

(** *** Finalizing twice *)

Lemma num_le_antisym (a b : num) : num_le a b -> num_le b a -> a = b.
Proof.
  unfold num_le. destruct a, b; simpl; try congruence.
  rewrite !Z.ltb_ge. intros. f_equal. lia.
Qed.

Lemma is_min_from_unique (s : list num) (i : nat) (m m' : num) :
  is_min_from s i m -> is_min_from s i m' -> m = m'.
Proof.
  intros [(j & Hj & Hm) Hlow] [(j' & Hj' & Hm') Hlow'].
  apply num_le_antisym; eauto.
Qed.

Lemma final_loop_erase (ts ts1 : tskset) (s s1 : list num) :
  length s = length ts ->
  final_loop (length ts) ts s = Ok (ts1, s1) ->
  length ts1 = length ts /\ map erase ts1 = map erase ts.
Proof.
  intros Hlen H.
  destruct (final_loop_result ts s Hlen) as (ts' & s' & H' & Hl & Hr).
  rewrite H in H'. injection H' as <- <-. split; [exact Hl|].
  apply list_eq. intros i. rewrite !lookup_map_erase.
  destruct (ts !! i) as [tsk|] eqn:Ei.
  - destruct (Hr i tsk Ei) as (m & _ & _ & ->). reflexivity.
  - apply lookup_ge_None in Ei. rewrite (lookup_ge_None_2 ts1 i) by lia.
    reflexivity.
Qed.

Lemma final_loop_idempotent (ts ts1 : tskset) (s s1 : list num) :
  length s = length ts ->
  final_loop (length ts) ts s = Ok (ts1, s1) ->
  exists s2, final_loop (length ts) ts1 s = Ok (ts1, s2).
Proof.
  intros Hlen H.
  destruct (final_loop_result ts s Hlen) as (ts' & s' & H' & Hl & Hr).
  rewrite H in H'. injection H' as <- <-.
  destruct (final_loop_result ts1 s ltac:(lia)) as (ts2 & s2 & H2 & Hl2 & Hr2).
  rewrite Hl in H2. exists s2. rewrite H2. do 2 f_equal.
  apply list_eq. intros i.
  destruct (ts !! i) as [tsk|] eqn:Ei.
  - destruct (Hr i tsk Ei) as (m & Hm & _ & E1).
    destruct (Hr2 i _ E1) as (m' & Hm' & _ & E2).
    rewrite E1, E2. rewrite (is_min_from_unique s i m' m Hm' Hm).
    reflexivity.
  - apply lookup_ge_None in Ei.
    rewrite (lookup_ge_None_2 ts1 i), (lookup_ge_None_2 ts2 i) by lia.
    reflexivity.
Qed.

(** What a second run sees of the set a first run left behind. *)
Lemma rerun_facts (ts ts1 : tskset) (s s1 : list num) (u : Q) (first : task) :
  utilization ts = Ok u -> exceeds_one u = false ->
  index (sort_by_deadline ts) 0 = Ok first ->
  length s = length (sort_by_deadline ts) ->
  final_loop (length (sort_by_deadline ts)) (sort_by_deadline ts) s
  = Ok (ts1, s1) ->
  (exists u1, utilization ts1 = Ok u1 /\ exceeds_one u1 = false)
  /\ sort_by_deadline ts1 = ts1
  /\ length ts1 = length (sort_by_deadline ts)
  /\ map erase ts1 = map erase (sort_by_deadline ts)
  /\ (exists first1, index ts1 0 = Ok first1)
  /\ exists s2, final_loop (length (sort_by_deadline ts)) ts1 s = Ok (ts1, s2).
Proof.
  intros Hu Hex Hfirst Hlen Hfin.
  destruct (final_loop_erase _ _ _ _ Hlen Hfin) as [Hl1 Herase].
  split.
  { destruct (utilization_sort ts u Hu) as (u' & Hu' & Eu).
    exists u'. split.
    - rewrite <- utilization_erase, Herase, utilization_erase. exact Hu'.
    - rewrite (exceeds_one_Qeq u' u Eu). exact Hex. }
  split.
  { apply sort_by_deadline_fixes_sorted. unfold deadline_sorted.
    rewrite <- deadlines_erase, Herase, deadlines_erase.
    apply sort_by_deadline_sorted. }
  split; [exact Hl1|]. split; [exact Herase|]. split.
  { apply index_Ok, lookup_lt_Some in Hfirst.
    destruct (index_lt ts1 0 ltac:(lia)) as (f1 & Hf1 & _). eauto. }
  eapply final_loop_idempotent; eassumption.
Qed.

(** C9. Running the same solver again on the task set a returning run left
    behind returns, with the same fuel, the same outcome and the very same
    task set: same order and same response times.  (A run that reported
    "not schedulable" had left the set untouched and reports it again.) *)
Theorem reanalysis_idempotent (fuel : nat) (ts ts1 : tskset)
    (sbf sbf_inv : Z -> Z) (r : retval) :
  (approx_wcrt fuel ts sbf sbf_inv = Ok (r, ts1) ->
   approx_wcrt fuel ts1 sbf sbf_inv = Ok (r, ts1))
  /\ (exact_wcrt fuel ts sbf sbf_inv = Ok (r, ts1) ->
      exact_wcrt fuel ts1 sbf sbf_inv = Ok (r, ts1)).
Proof.
  split; intros H.
  - destruct (approx_wcrt_Ok _ _ _ _ _ _ H) as (u & Hu & Hcase).
    destruct Hcase
      as [(_ & -> & ->)
         |(Hex & -> & first & g & i & s & s2 & Hfirst & Hg & Hloop & Hfin)];
      [exact H|].
    assert (Hlen : length s = length (sort_by_deadline ts)).
    { rewrite (approx_loop_length _ _ _ _ _ _ _ Hloop).
      apply length_replicate. }
    destruct (rerun_facts ts ts1 s s2 u first Hu Hex Hfirst Hlen Hfin)
      as ((u1 & Hu1 & Hex1) & Hsort & Hl1 & Herase & (f1 & Hf1) & (s3 & Hfin1)).
    unfold approx_wcrt. rewrite Hu1. cbn [bind]. rewrite Hex1. cbv zeta.
    rewrite Hsort, Hf1. cbn [bind].
    rewrite <- delta_values_erase, Herase, delta_values_erase, Hg. cbn [bind].
    rewrite Hl1.
    rewrite <- approx_loop_erase, Herase, approx_loop_erase, Hloop. cbn [bind].
    rewrite Hfin1. reflexivity.
  - destruct (exact_wcrt_Ok _ _ _ _ _ _ H) as (u & Hu & Hcase).
    destruct Hcase
      as [(_ & -> & ->)
         |(Hex & -> & first & g & i & s & s2 & Hfirst & Hg & Hloop & Hfin)];
      [exact H|].
    assert (Hlen : length s = length (sort_by_deadline ts)).
    { rewrite (exact_loop_length _ _ _ _ _ _ _ _ Hloop).
      apply length_replicate. }
    destruct (rerun_facts ts ts1 s s2 u first Hu Hex Hfirst Hlen Hfin)
      as ((u1 & Hu1 & Hex1) & Hsort & Hl1 & Herase & (f1 & Hf1) & (s3 & Hfin1)).
    unfold exact_wcrt. rewrite Hu1. cbn [bind]. rewrite Hex1. cbv zeta.
    rewrite Hsort, Hf1. cbn [bind].
    rewrite <- delta_values_erase, Herase, delta_values_erase, Hg. cbn [bind].
    rewrite Hl1.
    rewrite <- exact_loop_erase, Herase, exact_loop_erase, Hloop. cbn [bind].
    rewrite Hfin1. reflexivity.
Qed.

Lemma reanalysis_idempotent_witness :
  approx_wcrt 10 [mkTask 1 4 4 (Some (Int 1)); mkTask 2 6 6 (Some (Int 3))]
    sbf_uniprocessor sbf_inverse_uniprocessor
  = Ok (RetNone, [mkTask 1 4 4 (Some (Int 1)); mkTask 2 6 6 (Some (Int 3))])
  /\ exact_wcrt 10 [mkTask 1 4 4 (Some (Int 1)); mkTask 2 6 6 (Some (Int 3))]
       sbf_uniprocessor sbf_inverse_uniprocessor
     = Ok (RetNone, [mkTask 1 4 4 (Some (Int 1)); mkTask 2 6 6 (Some (Int 3))]).
Proof.
  split.
  - apply (reanalysis_idempotent 10 [task_B; task_A]). reflexivity.
  - apply (reanalysis_idempotent 10 [task_B; task_A]). reflexivity.
Defined.

(** * Further properties of the module *)

(** ** Values of the bound functions *)

Lemma dbf_i_value_Ok (tsk : task) (t : Z) :
  period tsk <> 0 -> dbf_i tsk t = Ok (dbf_i_value tsk t).
Proof.
  intros HT. unfold dbf_i, dbf_i_value. destruct (t <=? 0); [reflexivity|].
  destruct (Z.eqb_spec (period tsk) 0); [contradiction|reflexivity].
Qed.

Lemma rbf_i_value_Ok (tsk : task) (t : Z) :
  period tsk <> 0 -> rbf_i tsk t = Ok (rbf_i_value tsk t).
Proof.
  intros HT. unfold rbf_i, rbf_i_value. destruct (t <? 0); [reflexivity|].
  apply dbf_i_value_Ok. exact HT.
Qed.

Lemma mbf_i_value_Ok (tsk : task) (delta gamma : Z) :
  period tsk <> 0 ->
  mbf_i tsk delta gamma
  = Ok (Z.min (dbf_i_value tsk delta) (rbf_i_value tsk gamma)).
Proof.
  intros HT. unfold mbf_i.
  rewrite (dbf_i_value_Ok tsk delta HT), (rbf_i_value_Ok tsk gamma HT).
  reflexivity.
Qed.

Lemma valid_period_nonzero (ts : tskset) :
  Forall valid_task ts -> Forall (fun tsk => period tsk <> 0) ts.
Proof.
  intros H. eapply Forall_impl; [exact H|].
  intros tsk (_ & HT & _). simpl. lia.
Qed.

Lemma dbf_value_Ok (ts : tskset) (t : Z) :
  Forall (fun tsk => period tsk <> 0) ts -> dbf ts t = Ok (dbf_value ts t).
Proof.
  intros H. unfold dbf, dbf_value. destruct (t <=? 0); [reflexivity|].
  rewrite (sum_loop_Ok _ (fun tsk => dbf_i_value tsk t)); [reflexivity|].
  eapply Forall_impl; [exact H|]. intros tsk HT. simpl.
  apply dbf_i_value_Ok. exact HT.
Qed.

Lemma mbf_value_Ok (ts : tskset) (delta gamma : Z) :
  Forall (fun tsk => period tsk <> 0) ts ->
  mbf ts delta gamma = Ok (mbf_value ts delta gamma).
Proof.
  intros H. unfold mbf, mbf_value.
  rewrite (sum_loop_Ok _ (fun tsk => Z.min (dbf_i_value tsk delta)
                                       (rbf_i_value tsk gamma)));
    [reflexivity|].
  eapply Forall_impl; [exact H|]. intros tsk HT. simpl.
  apply mbf_i_value_Ok. exact HT.
Qed.

Lemma dbf_i_value_nonneg (tsk : task) (t : Z) : 0 <= dbf_i_value tsk t.
Proof. unfold dbf_i_value. destruct (t <=? 0); lia. Qed.

Lemma rbf_i_value_nonneg (tsk : task) (t : Z) : 0 <= rbf_i_value tsk t.
Proof.
  unfold rbf_i_value. destruct (t <? 0); [lia|apply dbf_i_value_nonneg].
Qed.

Lemma dbf_i_value_mono (tsk : task) (t t' : Z) :
  0 <= cost tsk -> 0 < period tsk -> t <= t' ->
  dbf_i_value tsk t <= dbf_i_value tsk t'.
Proof.
  intros HC HT Hle. unfold dbf_i_value.
  destruct (Z.leb_spec t 0), (Z.leb_spec t' 0); try lia.
  pose proof (Z.div_le_mono (t - deadline tsk) (t' - deadline tsk)
                (period tsk) HT ltac:(lia)).
  nia.
Qed.

Lemma rbf_i_value_mono (tsk : task) (t t' : Z) :
  0 <= cost tsk -> 0 < period tsk -> t <= t' ->
  rbf_i_value tsk t <= rbf_i_value tsk t'.
Proof.
  intros HC HT Hle. unfold rbf_i_value.
  destruct (Z.ltb_spec t 0), (Z.ltb_spec t' 0); try lia.
  - apply dbf_i_value_nonneg.
  - apply dbf_i_value_mono; [assumption..|lia].
Qed.

Lemma total_le (f g : task -> Z) (ts : tskset) :
  Forall (fun tsk => f tsk <= g tsk) ts -> total f ts <= total g ts.
Proof. induction 1; simpl; lia. Qed.

Lemma total_nonneg (f : task -> Z) (ts : tskset) :
  (forall tsk, 0 <= f tsk) -> 0 <= total f ts.
Proof.
  intros H. induction ts as [|tsk rest IH]; simpl; [lia|].
  specialize (H tsk). lia.
Qed.


Lemma dbf_value_mono (ts : tskset) (t t' : Z) :
  Forall valid_task ts -> t <= t' -> dbf_value ts t <= dbf_value ts t'.
Proof.
  intros Hv Hle. unfold dbf_value.
  destruct (Z.leb_spec t 0), (Z.leb_spec t' 0); try lia.
  - apply total_nonneg. intros tsk. apply dbf_i_value_nonneg.
  - apply total_le. eapply Forall_impl; [exact Hv|].
    intros tsk (HC & HT & _). simpl. apply dbf_i_value_mono; lia.
Qed.



Lemma mbf_value_mono (ts : tskset) (delta gamma gamma' : Z) :
  Forall valid_task ts -> gamma <= gamma' ->
  mbf_value ts delta gamma <= mbf_value ts delta gamma'.
Proof.
  intros Hv Hle. unfold mbf_value. apply total_le.
  eapply Forall_impl; [exact Hv|]. intros tsk (HC & HT & _). simpl.
  pose proof (rbf_i_value_mono tsk gamma gamma' ltac:(lia) HT Hle). lia.
Qed.

Lemma mbf_value_nonneg (ts : tskset) (delta gamma : Z) :
  0 <= mbf_value ts delta gamma.
Proof.
  unfold mbf_value. apply total_nonneg. intros tsk.
  pose proof (dbf_i_value_nonneg tsk delta).
  pose proof (rbf_i_value_nonneg tsk gamma). lia.
Qed.





Lemma sum_loop_lower (f : task -> res Z) (ts : tskset) :
  (forall tsk x, f tsk = Ok x -> 0 <= x) ->
  forall a X, sum_loop f ts a = Ok X -> a <= X.
Proof.
  intros Hf. induction ts as [|tsk rest IH]; intros a X HX; simpl in *.
  - injection HX as <-. lia.
  - inv_bind HX. pose proof (Hf tsk a0 Ha). apply IH in HX. lia.
Qed.

Lemma mbf_i_Ok_inv (tsk : task) (delta gamma x : Z) :
  mbf_i tsk delta gamma = Ok x ->
  exists d r, dbf_i tsk delta = Ok d /\ rbf_i tsk gamma = Ok r
              /\ x = Z.min d r /\ 0 <= d /\ 0 <= r.
Proof.
  unfold mbf_i. intros H.
  apply bind_Ok in H as (d & Hd & H). apply bind_Ok in H as (r & Hr & H).
  injection H as <-. exists d, r.
  pose proof (dbf_i_nonneg _ _ _ Hd). pose proof (rbf_i_nonneg _ _ _ Hr).
  auto.
Qed.

Lemma mbf_le_rbf (ts : tskset) (delta gamma m r : Z) :
  mbf ts delta gamma = Ok m -> rbf ts gamma = Ok r -> m <= r.
Proof.
  unfold mbf, rbf. intros Hm Hr.
  destruct (Z.ltb_spec gamma 0) as [Hneg|Hpos].
  - injection Hr as <-. refine (sum_loop_nonpos _ ts _ 0 m Hm).
    intros tsk x Hx.
    apply mbf_i_Ok_inv in Hx as (d & r & _ & Hr & -> & _ & _).
    unfold rbf_i in Hr. destruct (Z.ltb_spec gamma 0); [|lia].
    injection Hr as <-. lia.
  - refine (sum_loop_mono _ _ ts _ 0 0 m r _ Hm Hr); [|lia].
    intros tsk x y Hx Hy.
    apply mbf_i_Ok_inv in Hx as (d & r' & _ & Hr' & -> & _ & _).
    rewrite Hy in Hr'. injection Hr' as <-. lia.
Qed.

(** X3. Whenever the mixed bound of the system returns, its value is
    non-negative and exceeds neither the demand bound at [delta] nor the
    request bound at [gamma]. *)
Theorem mbf_below_dbf_and_rbf (ts : tskset) (delta gamma m : Z) :
  mbf ts delta gamma = Ok m ->
  0 <= m
  /\ (forall d, dbf ts delta = Ok d -> m <= d)
  /\ (forall r, rbf ts gamma = Ok r -> m <= r).
Proof.
  intros Hm. split; [|split].
  - unfold mbf in Hm. refine (sum_loop_lower _ ts _ 0 m Hm).
    intros tsk x Hx.
    apply mbf_i_Ok_inv in Hx as (d & r & _ & _ & -> & Hd & Hr). lia.
  - intros d Hd. eapply mbf_le_dbf; eassumption.
  - intros r Hr. eapply mbf_le_rbf; eassumption.
Qed.

Lemma mbf_below_dbf_and_rbf_witness :
  0 <= 3
  /\ (forall d, dbf [task_A; task_B] 6 = Ok d -> 3 <= d)
  /\ (forall r, rbf [task_A; task_B] 3 = Ok r -> 3 <= r).
Proof.
  apply (mbf_below_dbf_and_rbf [task_A; task_B] 6 3 3). reflexivity.
Defined.




(** ** The inner fixed point of the exact analysis *)

(** Iterating a monotone map [F] that is bounded by [d], from a point
    [go <= F go]: the loop reaches the least fixed point of [F] at or above
    [go] within [d - go + 1] rounds. *)
Lemma gamma_loop_converges (ts : tskset) (delta d : Z) (F : Z -> Z) :
  (forall gamma, mbf ts delta gamma = Ok (F gamma)) ->
  (forall x y, x <= y -> F x <= F y) ->
  (forall gamma, F gamma <= d) ->
  forall (n : nat) (go : Z),
    go <= F go -> (Z.to_nat (d - go) < n)%nat ->
    exists gamma,
      gamma_loop n ts sbf_inverse_uniprocessor delta go (F go) = Ok gamma
      /\ F gamma = gamma /\ go <= gamma
      /\ (forall gamma', go <= gamma' -> F gamma' = gamma' -> gamma <= gamma').
Proof.
  intros HF Hmono Hbound. induction n as [|n IH]; intros go Hgo Hn; [lia|].
  cbn [gamma_loop]. destruct (Z.eqb_spec (F go) go) as [E|E].
  - exists (F go). rewrite E. repeat split; lia.
  - rewrite (HF (F go)). cbn [bind]. unfold sbf_inverse_uniprocessor at 2.
    pose proof (Hbound go) as Hb.
    destruct (IH (F go) (Hmono _ _ Hgo) ltac:(lia))
      as (gamma & Hrun & Hfix & Hge & Hleast).
    exists gamma. split; [exact Hrun|]. split; [exact Hfix|].
    split; [lia|]. intros gamma' Hg' Hf'. apply Hleast; [|exact Hf'].
    rewrite <- Hf'. apply Hmono. exact Hg'.
Qed.

Lemma mbf_value_le_dbf_value (ts : tskset) (delta gamma : Z) :
  mbf_value ts delta gamma <= dbf_value ts delta.
Proof.
  unfold mbf_value, dbf_value. destruct (Z.leb_spec delta 0) as [Hn|Hp].
  - induction ts as [|tsk rest IH]; simpl; [lia|].
    pose proof (rbf_i_value_nonneg tsk gamma).
    unfold dbf_i_value at 1. destruct (Z.leb_spec delta 0); lia.
  - apply total_le. apply Forall_forall. intros tsk _. simpl. lia.
Qed.

Lemma gamma_loop_valid (ts : tskset) (delta : Z) :
  Forall valid_task ts ->
  exists gamma,
    (forall fuel, (Z.to_nat (dbf_value ts delta) < fuel)%nat ->
       gamma_loop fuel ts sbf_inverse_uniprocessor delta 0
         (sbf_inverse_uniprocessor (mbf_value ts delta 0)) = Ok gamma)
    /\ mbf_value ts delta gamma = gamma
    /\ 0 <= gamma <= dbf_value ts delta
    /\ (forall gamma', 0 <= gamma' -> mbf_value ts delta gamma' = gamma' ->
                       gamma <= gamma').
Proof.
  intros Hv.
  pose proof (valid_period_nonzero ts Hv) as Hnz.
  assert (Hconv := fun n =>
    gamma_loop_converges ts delta (dbf_value ts delta) (mbf_value ts delta)
      (fun gamma => mbf_value_Ok ts delta gamma Hnz)
      (fun x y => mbf_value_mono ts delta x y Hv)
      (mbf_value_le_dbf_value ts delta) n 0 (mbf_value_nonneg ts delta 0)).
  destruct (Hconv (S (Z.to_nat (dbf_value ts delta))))
    as (gamma & _ & Hfix & Hge & Hleast);
    [rewrite Z.sub_0_r; lia|].
  exists gamma. split; [|split; [exact Hfix|split; [|exact Hleast]]].
  - intros fuel Hfuel.
    destruct (Hconv fuel) as (gamma2 & Hrun & Hfix2 & Hge2 & Hleast2);
      [rewrite Z.sub_0_r; exact Hfuel|].
    unfold sbf_inverse_uniprocessor at 2. rewrite Hrun. f_equal.
    apply Z.le_antisymm; [apply Hleast2|apply Hleast]; assumption.
  - split; [exact Hge|]. rewrite <- Hfix. apply mbf_value_le_dbf_value.
Qed.

(** X5. On tasks with positive cost, period and deadline, and with the
    uniprocessor supply, the inner loop of [exact_wcrt] started as the code
    starts it ([gamma_old = 0], [gamma_new = mbf(tskset, delta, 0)]) returns
    after at most [dbf(tskset, delta) + 1] rounds.  What it returns is a
    fixed point of [gamma -> mbf(tskset, delta, gamma)], lies between 0 and
    [dbf(tskset, delta)], and is the least non-negative fixed point. *)
Theorem gamma_loop_least_fixed_point (ts : tskset) (delta : Z) :
  Forall valid_task ts ->
  exists d m0 gamma,
    dbf ts delta = Ok d /\ mbf ts delta 0 = Ok m0
    /\ (forall fuel, (Z.to_nat d < fuel)%nat ->
          gamma_loop fuel ts sbf_inverse_uniprocessor delta 0
            (sbf_inverse_uniprocessor m0) = Ok gamma)
    /\ mbf ts delta gamma = Ok gamma
    /\ 0 <= gamma <= d
    /\ (forall gamma', 0 <= gamma' -> mbf ts delta gamma' = Ok gamma' ->
                       gamma <= gamma').
Proof.
  intros Hv. pose proof (valid_period_nonzero ts Hv) as Hnz.
  destruct (gamma_loop_valid ts delta Hv) as (gamma & Hrun & Hfix & Hb & Hl).
  exists (dbf_value ts delta), (mbf_value ts delta 0), gamma.
  split; [apply dbf_value_Ok; exact Hnz|].
  split; [apply mbf_value_Ok; exact Hnz|].
  split; [exact Hrun|].
  split; [rewrite mbf_value_Ok by exact Hnz; f_equal; exact Hfix|].
  split; [exact Hb|].
  intros gamma' Hg' Hf'. apply Hl; [exact Hg'|].
  rewrite mbf_value_Ok in Hf' by exact Hnz. injection Hf' as Hf'. exact Hf'.
Qed.

Lemma gamma_loop_least_fixed_point_witness :
  exists d m0 gamma,
    dbf [task_A; task_B] 6 = Ok d /\ mbf [task_A; task_B] 6 0 = Ok m0
    /\ (forall fuel, (Z.to_nat d < fuel)%nat ->
          gamma_loop fuel [task_A; task_B] sbf_inverse_uniprocessor 6 0
            (sbf_inverse_uniprocessor m0) = Ok gamma)
    /\ mbf [task_A; task_B] 6 gamma = Ok gamma
    /\ 0 <= gamma <= d
    /\ (forall gamma', 0 <= gamma' ->
                       mbf [task_A; task_B] 6 gamma' = Ok gamma' ->
                       gamma <= gamma').
Proof.
  apply (gamma_loop_least_fixed_point [task_A; task_B] 6).
  repeat constructor; simpl; lia.
Defined.

(** ** The horizon search and the utilization *)




Lemma find_L_prime_loop_sound (ts : tskset) (sbf : Z -> Z) :
  forall fuel l0 l,
    find_L_prime_loop fuel ts sbf l0 = Ok l ->
    l0 <= l /\ exists r, rbf ts l = Ok r /\ r <= sbf l.
Proof.
  induction fuel as [|fuel IH]; intros l0 l H; [discriminate|].
  cbn [find_L_prime_loop] in H. apply bind_Ok in H as (r & Hr & H).
  destruct (Z.leb_spec r (sbf l0)).
  - injection H as <-. split; [lia|]. eauto.
  - apply IH in H as [Hl Hex]. split; [lia|exact Hex].
Qed.




(** X7. When [find_L_prime] returns on tasks with positive cost, period and
    deadline under the uniprocessor supply, its result is at least the sum
    of the costs, and the horizon of [find_L] is at least that sum plus the
    largest deadline. *)
Theorem horizon_at_least_total_cost (fuel : nat) (ts : tskset) (L : Z) :
  Forall valid_task ts ->
  find_L fuel ts sbf_uniprocessor = Ok L ->
  exists l dmax,
    find_L_prime fuel ts sbf_uniprocessor = Ok l
    /\ is_maximum (map deadline ts) dmax
    /\ L = l + dmax
    /\ total cost ts <= l.
Proof.
  intros Hv HL. unfold find_L in HL.
  apply bind_Ok in HL as (l & Hl & HL).
  apply bind_Ok in HL as (dmax & Hmax & HL). injection HL as <-.
  exists l, dmax. split; [exact Hl|].
  split.
  { destruct (map deadline ts) as [|x r] eqn:E; [discriminate|].
    injection Hmax as <-. apply fold_left_max_spec. }
  split; [reflexivity|].
  unfold find_L_prime in Hl.
  apply find_L_prime_loop_sound in Hl as (Hl0 & r & Hr & Hle).
  rewrite (rbf_valid ts l Hv Hl0) in Hr. injection Hr as <-.
  unfold sbf_uniprocessor in Hle.
  assert (total cost ts <= rbf_value ts l); [|lia].
  unfold rbf_value. apply total_le.
  eapply Forall_impl; [exact Hv|]. intros tsk (HC & HT & _). simpl.
  pose proof (Z.div_pos l (period tsk) Hl0 HT). nia.
Qed.

Lemma horizon_at_least_total_cost_witness :
  exists l dmax,
    find_L_prime 10 [task_A; task_B] sbf_uniprocessor = Ok l
    /\ is_maximum (map deadline [task_A; task_B]) dmax
    /\ 9 = l + dmax
    /\ total cost [task_A; task_B] <= l.
Proof.
  apply (horizon_at_least_total_cost 10 [task_A; task_B] 9).
  - repeat constructor; simpl; lia.
  - reflexivity.
Defined.

(** ** When the solvers return *)

Lemma insert_by_deadline_Forall (P : task -> Prop) (tsk : task) (ts : tskset) :
  P tsk -> Forall P ts -> Forall P (insert_by_deadline tsk ts).
Proof.
  intros Ht. induction 1 as [|hd tl Hhd Htl IH]; simpl.
  - repeat constructor. exact Ht.
  - destruct (deadline tsk <=? deadline hd); repeat constructor; assumption.
Qed.

Lemma sort_by_deadline_Forall (P : task -> Prop) (ts : tskset) :
  Forall P ts -> Forall P (sort_by_deadline ts).
Proof.
  induction 1 as [|tsk rest Ht _ IH]; simpl; [constructor|].
  apply insert_by_deadline_Forall; assumption.
Qed.

Lemma sort_by_deadline_nonempty (ts : tskset) :
  ts <> [] -> (0 < length (sort_by_deadline ts))%nat.
Proof.
  intros Hne. rewrite sort_by_deadline_length.
  destruct ts; [congruence|simpl; lia].
Qed.

Lemma approx_loop_returns (ts : tskset) (sbf_inv : Z -> Z) (g : gen) :
  Forall (fun tsk => period tsk <> 0) ts -> exhausts g ->
  forall i s, (i < length ts)%nat -> length s = length ts ->
    exists i' s', approx_loop ts sbf_inv g i s = Ok (i', s').
Proof.
  intros Hnz. induction g as [|delta rest IH|e]; intros Hex i s Hi Hs;
    cbn [approx_loop exhausts] in *; [eauto| |contradiction].
  destruct (Z.leb_spec (Z.of_nat (length ts) - 1) (Z.of_nat i)); [eauto|].
  destruct (index_lt ts (i + 1) ltac:(lia)) as (nxt & -> & _). cbn [bind].
  set (i1 := if deadline nxt <=? delta then (i + 1)%nat else i).
  assert (Hi1 : (i1 < length ts)%nat).
  { unfold i1. destruct (deadline nxt <=? delta); lia. }
  destruct (index_lt s i1 ltac:(lia)) as (si & -> & _). cbn [bind].
  rewrite (dbf_value_Ok ts delta Hnz). cbn [bind].
  apply IH; [exact Hex|exact Hi1|]. rewrite length_insert. exact Hs.
Qed.

Lemma exact_loop_returns (fuel : nat) (ts : tskset) (g : gen) :
  Forall valid_task ts -> exhausts g ->
  (forall delta, In delta (yielded g) ->
                 (Z.to_nat (dbf_value ts delta) < fuel)%nat) ->
  forall i s, (i < length ts)%nat -> length s = length ts ->
    exists i' s',
      exact_loop fuel ts sbf_inverse_uniprocessor g i s = Ok (i', s').
Proof.
  intros Hv. pose proof (valid_period_nonzero ts Hv) as Hnz.
  induction g as [|delta rest IH|e]; intros Hex Hfuel i s Hi Hs;
    cbn [exact_loop exhausts yielded] in *; [eauto| |contradiction].
  destruct (Z.leb_spec (Z.of_nat (length ts) - 1) (Z.of_nat i)); [eauto|].
  destruct (index_lt ts (i + 1) ltac:(lia)) as (nxt & -> & _). cbn [bind].
  set (i1 := if deadline nxt <=? delta then (i + 1)%nat else i).
  assert (Hi1 : (i1 < length ts)%nat).
  { unfold i1. destruct (deadline nxt <=? delta); lia. }
  rewrite (dbf_value_Ok ts delta Hnz). cbn [bind].
  destruct (index_lt s i1 ltac:(lia)) as (si & -> & _). cbn [bind].
  assert (Hrest : forall d, In d (yielded rest) ->
                            (Z.to_nat (dbf_value ts d) < fuel)%nat).
  { intros d Hd. apply Hfuel. right. exact Hd. }
  destruct (num_ltb _ si).
  - rewrite (mbf_value_Ok ts delta 0 Hnz). cbn [bind].
    destruct (gamma_loop_valid ts delta Hv) as (gamma & Hrun & _).
    rewrite (Hrun fuel (Hfuel delta (or_introl eq_refl))). cbn [bind].
    apply IH; [exact Hex|exact Hrest|exact Hi1|].
    rewrite length_insert. exact Hs.
  - apply IH; assumption.
Qed.

(** The test points of a valid set, once the horizon search has returned. *)
Lemma delta_values_returns (fuel : nat) (ts : tskset) (sbf : Z -> Z) (l : Z) :
  ts <> [] -> Forall valid_task ts ->
  find_L_prime fuel ts sbf = Ok l ->
  exists g dmax,
    delta_values fuel ts sbf = Ok g /\ exhausts g
    /\ is_maximum (map deadline ts) dmax
    /\ forall delta, In delta (yielded g) -> delta <= l + dmax.
Proof.
  intros Hne Hv Hl.
  assert (HD : Forall (fun tsk => 0 < deadline tsk) ts).
  { eapply Forall_impl; [exact Hv|]. intros tsk (_ & _ & H). exact H. }
  assert (Hmne : map deadline ts <> []).
  { destruct ts; [congruence|discriminate]. }
  destruct (py_min_spec _ Hmne) as (dmin & Hmin & Hdmin).
  destruct (py_max_spec _ Hmne) as (dmax & Hmax & Hdmax).
  unfold delta_values, find_L. rewrite Hl, Hmax. cbn [bind].
  rewrite Hmin. cbn [bind].
  destruct (delta_loop_spec ts (Z.to_nat (l + dmax + 1 - dmin)) HD dmin)
    as (Hex & _ & Hin).
  eexists _, dmax. split; [reflexivity|]. split; [exact Hex|].
  split; [exact Hdmax|]. intros delta Hd. apply Hin in Hd. lia.
Qed.

Lemma wcrt_returns (ts : tskset) (u : Q) :
  ts <> [] -> Forall valid_task ts ->
  utilization ts = Ok u -> (u < 1)%Q ->
  exists fuel0 : nat,
    forall fuel, (fuel0 <= fuel)%nat ->
      exists tsa tse,
        approx_wcrt fuel ts sbf_uniprocessor sbf_inverse_uniprocessor
        = Ok (RetNone, tsa)
        /\ exact_wcrt fuel ts sbf_uniprocessor sbf_inverse_uniprocessor
           = Ok (RetNone, tse).
Proof.
  intros Hne Hv Hu Hlt.
  set (sorted := sort_by_deadline ts).
  assert (Hvs : Forall valid_task sorted)
    by (apply sort_by_deadline_Forall; exact Hv).
  pose proof (sort_by_deadline_nonempty ts Hne) as Hlen. fold sorted in Hlen.
  assert (Hsne : sorted <> [])
    by (intros E; rewrite E in Hlen; simpl in Hlen; lia).
  destruct (utilization_sort ts u Hu) as (u' & Hu' & Eu). fold sorted in Hu'.
  assert (Hlt' : (u' < 1)%Q) by (rewrite Eu; exact Hlt).
  destruct (rbf_meets_supply sorted u' Hvs Hu' Hlt') as (l1 & Hl1 & Hle).
  destruct (find_L_prime_loop_scan sorted sbf_uniprocessor (rbf_value sorted)
              (fun l => rbf_valid sorted l Hvs) (S (Z.to_nat l1)) 0
              ltac:(lia))
    as (l & _ & Hrun & _).
  { exists l1. split; [lia|exact Hle]. }
  destruct (py_max_spec (map deadline sorted)) as (dmax & _ & Hdmax).
  { destruct sorted; [congruence|discriminate]. }
  exists (Nat.max (S (Z.to_nat l1))
                  (S (Z.to_nat (dbf_value sorted (l + dmax))))).
  intros fuel Hfuel.
  assert (HL : find_L_prime fuel sorted sbf_uniprocessor = Ok l)
    by (apply Hrun; lia).
  destruct (delta_values_returns fuel sorted sbf_uniprocessor l Hsne Hvs HL)
    as (g & dmax' & Hg & Hex & Hdmax' & Hbound).
  assert (dmax' = dmax) as ->.
  { destruct Hdmax as [Hi1 Hm1], Hdmax' as [Hi2 Hm2].
    apply Z.le_antisymm; auto. }
  assert (Hgfuel : forall delta, In delta (yielded g) ->
                     (Z.to_nat (dbf_value sorted delta) < fuel)%nat).
  { intros delta Hd.
    pose proof (dbf_value_mono sorted delta (l + dmax) Hvs (Hbound delta Hd)).
    lia. }
  pose proof (valid_period_nonzero sorted Hvs) as Hnz.
  destruct (index_lt sorted 0 Hlen) as (first & Hfirst & _).
  destruct (approx_loop_returns sorted sbf_inverse_uniprocessor g Hnz Hex 0
              (replicate (length sorted) PosInf) Hlen (length_replicate _ _))
    as (ia & sa & Hla).
  destruct (exact_loop_returns fuel sorted g Hvs Hex Hgfuel 0
              (replicate (length sorted) PosInf) Hlen (length_replicate _ _))
    as (ie & se & Hle').
  destruct (final_loop_result sorted sa) as (tsa & sa2 & Hfa & _).
  { rewrite (approx_loop_length _ _ _ _ _ _ _ Hla). apply length_replicate. }
  destruct (final_loop_result sorted se) as (tse & se2 & Hfe & _).
  { rewrite (exact_loop_length _ _ _ _ _ _ _ _ Hle'). apply length_replicate. }
  assert (Hex1 : exceeds_one u = false).
  { apply exceeds_one_false. apply Qlt_le_weak. exact Hlt. }
  exists tsa, tse. unfold approx_wcrt, exact_wcrt.
  rewrite Hu. cbn [bind]. rewrite Hex1. cbv zeta. fold sorted.
  rewrite Hfirst, Hg. cbn [bind]. rewrite Hla, Hle'. cbn [bind].
  rewrite Hfa, Hfe. split; reflexivity.
Qed.





Lemma single_task_utilization (tsk : task) :
  0 < period tsk -> cost tsk < period tsk ->
  exists u, utilization [tsk] = Ok u /\ (u < 1)%Q.
Proof.
  intros HT HC. simpl. destruct (Z.eqb_spec (period tsk) 0); [lia|].
  eexists. split; [reflexivity|]. rewrite Qplus_0_r.
  apply Qlt_shift_div_r.
  - change 0%Q with (inject_Z 0). rewrite <- Zlt_Qlt. exact HT.
  - rewrite Qmult_1_l, <- Zlt_Qlt. exact HC.
Qed.

(** X10. For a task set with a single task of positive cost, period and
    deadline and cost below period, both solvers return, and what they write
    is [response_time = -inf]: with one task the test-point loop is left
    before any slack update, so the slack stays [+inf]. *)
Theorem single_task_response_time (tsk : task) :
  valid_task tsk -> cost tsk < period tsk ->
  exists fuel0 : nat,
    forall fuel, (fuel0 <= fuel)%nat ->
      approx_wcrt fuel [tsk] sbf_uniprocessor sbf_inverse_uniprocessor
      = Ok (RetNone, [set_response_time tsk NegInf])
      /\ exact_wcrt fuel [tsk] sbf_uniprocessor sbf_inverse_uniprocessor
         = Ok (RetNone, [set_response_time tsk NegInf]).
Proof.
  intros Hv HC. pose proof Hv as (_ & HT & _).
  destruct (single_task_utilization tsk HT HC) as (u & Hu & Hlt).
  destruct (wcrt_returns [tsk] u ltac:(discriminate)
              ltac:(constructor; [exact Hv|constructor]) Hu Hlt)
    as (fuel0 & Hret).
  exists fuel0. intros fuel Hfuel.
  destruct (Hret fuel Hfuel) as (tsa & tse & Ha & He).
  rewrite Ha, He.
  apply approx_wcrt_Ok in Ha as (ua & _ & Hca).
  apply exact_wcrt_Ok in He as (ue & _ & Hce).
  destruct Hca as [(_ & Hx & _)|(_ & _ & _ & ga & ia & sa & sa2 & _ & _ & Hla & Hfa)];
    [discriminate|].
  destruct Hce as [(_ & Hx & _)|(_ & _ & _ & ge & ie & se & se2 & _ & _ & Hle & Hfe)];
    [discriminate|].
  cbn [sort_by_deadline insert_by_deadline length replicate] in *.
  apply approx_loop_last in Hla as [Hla _]; [|simpl; lia].
  apply exact_loop_last in Hle as [Hle _]; [|simpl; lia].
  destruct (Hla eq_refl) as [_ ->]. destruct (Hle eq_refl) as [_ ->].
  cbn in Hfa, Hfe. injection Hfa as <- _. injection Hfe as <- _.
  split; reflexivity.
Qed.

Lemma single_task_response_time_witness :
  exists fuel0 : nat,
    forall fuel, (fuel0 <= fuel)%nat ->
      approx_wcrt fuel [mkTask 1 3 3 None] sbf_uniprocessor
        sbf_inverse_uniprocessor
      = Ok (RetNone, [mkTask 1 3 3 (Some NegInf)])
      /\ exact_wcrt fuel [mkTask 1 3 3 None] sbf_uniprocessor
           sbf_inverse_uniprocessor
         = Ok (RetNone, [mkTask 1 3 3 (Some NegInf)]).
Proof.
  apply (single_task_response_time (mkTask 1 3 3 None)).
  - unfold valid_task; simpl; lia.
  - simpl; lia.
Defined.

(** ** What the passes leave behind *)

(** X11. The finalization pass changes no cost, period or deadline and
    writes a response time to every task: task [i] gets its deadline minus
    the slack the pass leaves at [i].  The slack array it leaves is nowhere
    above the one it was entered with and is non-decreasing along the
    indices. *)
Theorem final_loop_output (ts ts' : tskset) (s s' : list num) :
  length s = length ts ->
  final_loop (length ts) ts s = Ok (ts', s') ->
  map erase ts' = map erase ts
  /\ length s' = length s
  /\ (forall i t, ts' !! i = Some t ->
        exists m, s' !! i = Some m
                  /\ response_time t = Some (num_rsub (deadline t) m))
  /\ (forall i m x, s' !! i = Some m -> s !! i = Some x -> num_le m x)
  /\ (forall i j mi mj, (i <= j)%nat -> s' !! i = Some mi ->
                        s' !! j = Some mj -> num_le mi mj).
Proof.
  intros Hlen H.
  destruct (final_loop_erase ts ts' s s' Hlen H) as [Hl Herase].
  destruct (final_loop_inv (length ts) ts s ltac:(lia) ltac:(lia))
    as (ts2 & s2 & H2 & _ & Hls & _).
  destruct (final_loop_result ts s Hlen) as (ts3 & s3 & H3 & _ & Hr).
  rewrite H in H2, H3. injection H2 as <- <-. injection H3 as <- <-.
  assert (Hmin : forall i m, s' !! i = Some m -> is_min_from s i m).
  { intros i m Hm.
    assert (Hi : (i < length ts)%nat).
    { apply lookup_lt_Some in Hm. lia. }
    destruct (lookup_lt_is_Some_2 ts i Hi) as [tsk Htsk].
    destruct (Hr i tsk Htsk) as (m' & Hm' & Hs' & _). congruence. }
  split; [exact Herase|]. split; [exact Hls|]. split; [|split].
  - intros i t Ht.
    assert (Hi : (i < length ts)%nat).
    { apply lookup_lt_Some in Ht. lia. }
    destruct (lookup_lt_is_Some_2 ts i Hi) as [tsk Htsk].
    destruct (Hr i tsk Htsk) as (m & _ & Hs' & Ht').
    exists m. split; [exact Hs'|]. rewrite Ht in Ht'. injection Ht' as ->.
    reflexivity.
  - intros i m x Hm Hx. destruct (Hmin i m Hm) as [_ Hlow].
    apply (Hlow i x); [lia|exact Hx].
  - intros i j mi mj Hij Hmi Hmj.
    destruct (Hmin i mi Hmi) as [_ Hlow].
    destruct (Hmin j mj Hmj) as [(k & Hk & Hsk) _].
    apply (Hlow k mj); [lia|exact Hsk].
Qed.

Lemma final_loop_output_witness :
  map erase [mkTask 1 4 4 (Some (Int 3)); mkTask 2 6 6 (Some (Int 5))]
  = map erase [task_A; task_B]
  /\ length [Int 1; Int 1] = length [Int 3; Int 1]
  /\ (forall i t,
        [mkTask 1 4 4 (Some (Int 3)); mkTask 2 6 6 (Some (Int 5))] !! i
        = Some t ->
        exists m, [Int 1; Int 1] !! i = Some m
                  /\ response_time t = Some (num_rsub (deadline t) m))
  /\ (forall i m x, [Int 1; Int 1] !! i = Some m ->
                    [Int 3; Int 1] !! i = Some x -> num_le m x)
  /\ (forall i j mi mj, (i <= j)%nat -> [Int 1; Int 1] !! i = Some mi ->
                        [Int 1; Int 1] !! j = Some mj -> num_le mi mj).
Proof.
  apply (final_loop_output [task_A; task_B] _ [Int 3; Int 1] _).
  - reflexivity.
  - reflexivity.
Defined.

Lemma insert_by_deadline_Permutation (tsk : task) (ts : tskset) :
  Permutation (insert_by_deadline tsk ts) (tsk :: ts).
Proof.
  induction ts as [|hd tl IH]; simpl; [reflexivity|].
  destruct (deadline tsk <=? deadline hd); [reflexivity|].
  rewrite IH. apply perm_swap.
Qed.

Lemma sort_by_deadline_Permutation (ts : tskset) :
  Permutation (sort_by_deadline ts) ts.
Proof.
  induction ts as [|tsk rest IH]; simpl; [reflexivity|].
  rewrite insert_by_deadline_Permutation. constructor. exact IH.
Qed.

(** What a solver hands back when it analysed the set. *)
Lemma analysed_output (ts ts' : tskset) (s s2 : list num) :
  length s = length (sort_by_deadline ts) ->
  final_loop (length (sort_by_deadline ts)) (sort_by_deadline ts) s
  = Ok (ts', s2) ->
  Permutation (map erase ts') (map erase ts)
  /\ deadline_sorted ts'
  /\ Forall (fun t => response_time t <> None) ts'.
Proof.
  intros Hlen Hfin.
  destruct (final_loop_erase _ _ _ _ Hlen Hfin) as [Hl Herase].
  split; [|split].
  - rewrite Herase. apply Permutation_map. apply sort_by_deadline_Permutation.
  - unfold deadline_sorted.
    rewrite <- deadlines_erase, Herase, deadlines_erase.
    apply sort_by_deadline_sorted.
  - destruct (final_loop_result _ s Hlen) as (ts3 & s3 & H3 & _ & Hr).
    rewrite Hfin in H3. injection H3 as <- <-.
    apply Forall_forall. intros t Ht.
    apply list_elem_of_lookup in Ht as [i Hi].
    assert (Hil : (i < length (sort_by_deadline ts))%nat).
    { apply lookup_lt_Some in Hi. lia. }
    destruct (lookup_lt_is_Some_2 _ i Hil) as [tsk Htsk].
    destruct (Hr i tsk Htsk) as (m & _ & _ & Ht').
    rewrite Hi in Ht'. injection Ht' as ->. discriminate.
Qed.

(** X12. When a solver returns [None] (the set was analysed), the task set
    it leaves is the input reordered, with costs, periods and deadlines
    untouched; it is in non-decreasing deadline order, and every task
    carries a response time. *)
Theorem solver_output (fuel : nat) (ts ts' : tskset) (sbf sbf_inv : Z -> Z) :
  (approx_wcrt fuel ts sbf sbf_inv = Ok (RetNone, ts')
   \/ exact_wcrt fuel ts sbf sbf_inv = Ok (RetNone, ts')) ->
  Permutation (map erase ts') (map erase ts)
  /\ deadline_sorted ts'
  /\ Forall (fun t => response_time t <> None) ts'.
Proof.
  intros [H|H].
  - apply approx_wcrt_Ok in H as (u & _ & Hc).
    destruct Hc as [(_ & Hx & _)|(_ & _ & first & g & i & s & s2 & _ & _ & Hl & Hf)];
      [discriminate|].
    eapply analysed_output; [|exact Hf].
    rewrite (approx_loop_length _ _ _ _ _ _ _ Hl). apply length_replicate.
  - apply exact_wcrt_Ok in H as (u & _ & Hc).
    destruct Hc as [(_ & Hx & _)|(_ & _ & first & g & i & s & s2 & _ & _ & Hl & Hf)];
      [discriminate|].
    eapply analysed_output; [|exact Hf].
    rewrite (exact_loop_length _ _ _ _ _ _ _ _ Hl). apply length_replicate.
Qed.

Lemma solver_output_witness :
  Permutation
    (map erase [mkTask 1 4 4 (Some (Int 1)); mkTask 2 6 6 (Some (Int 3))])
    (map erase [task_B; task_A])
  /\ deadline_sorted
       [mkTask 1 4 4 (Some (Int 1)); mkTask 2 6 6 (Some (Int 3))]
  /\ Forall (fun t => response_time t <> None)
       [mkTask 1 4 4 (Some (Int 1)); mkTask 2 6 6 (Some (Int 3))].
Proof.
  apply (solver_output 10 [task_B; task_A] _ sbf_uniprocessor
           sbf_inverse_uniprocessor).
  left. reflexivity.
Defined.

(** ** Invariants of the test-point loops *)

Lemma slack_le_refl (s : list num) : Forall2 num_le s s.
Proof.
  apply Forall2_same_length_lookup_2; [reflexivity|].
  intros i x y Hx Hy. rewrite Hx in Hy. injection Hy as <-.
  apply num_le_refl.
Qed.

Lemma slack_le_trans (a b c : list num) :
  Forall2 num_le a b -> Forall2 num_le b c -> Forall2 num_le a c.
Proof.
  intros Hab Hbc. apply Forall2_same_length_lookup_2.
  - rewrite (Forall2_length _ _ _ Hab). eapply Forall2_length. exact Hbc.
  - intros i x z Hx Hz.
    destruct (Forall2_lookup_l _ _ _ _ _ Hab Hx) as (y & Hy & Hxy).
    eapply num_le_trans; [exact Hxy|].
    eapply Forall2_lookup_lr; eassumption.
Qed.

Lemma slack_le_insert_min (s : list num) (i : nat) (si c : num) :
  s !! i = Some si -> Forall2 num_le (<[i := num_min si c]> s) s.
Proof.
  intros Hsi. rewrite <- (list_insert_id s i si Hsi) at 2.
  apply Forall2_insert; [apply slack_le_refl|apply num_min_le_l].
Qed.

Lemma approx_loop_invariants (ts : tskset) (sbf_inv : Z -> Z) (g : gen) :
  forall i s i' s',
    approx_loop ts sbf_inv g i s = Ok (i', s') ->
    (i <= i' <= i + length (yielded g))%nat /\ Forall2 num_le s' s.
Proof.
  induction g as [|delta rest IH|e]; intros i s i' s' H;
    cbn [approx_loop yielded length] in *.
  - injection H as <- <-. split; [lia|apply slack_le_refl].
  - destruct (Z.of_nat (length ts) - 1 <=? Z.of_nat i).
    { injection H as <- <-. split; [lia|apply slack_le_refl]. }
    inv_bind H. rename a into nxt.
    set (i1 := if deadline nxt <=? delta then (i + 1)%nat else i) in H.
    assert (Hi1 : (i <= i1 <= i + 1)%nat).
    { unfold i1. destruct (deadline nxt <=? delta); lia. }
    inv_bind H. rename a into si, Ha0 into Hsi. apply index_Ok in Hsi.
    inv_bind H. apply IH in H as [Hi' Hs'].
    split; [lia|]. eapply slack_le_trans; [exact Hs'|].
    apply slack_le_insert_min. exact Hsi.
  - discriminate.
Qed.

Lemma exact_loop_invariants (fuel : nat) (ts : tskset) (sbf_inv : Z -> Z)
    (g : gen) :
  forall i s i' s',
    exact_loop fuel ts sbf_inv g i s = Ok (i', s') ->
    (i <= i' <= i + length (yielded g))%nat /\ Forall2 num_le s' s.
Proof.
  induction g as [|delta rest IH|e]; intros i s i' s' H;
    cbn [exact_loop yielded length] in *.
  - injection H as <- <-. split; [lia|apply slack_le_refl].
  - destruct (Z.of_nat (length ts) - 1 <=? Z.of_nat i).
    { injection H as <- <-. split; [lia|apply slack_le_refl]. }
    inv_bind H. rename a into nxt.
    set (i1 := if deadline nxt <=? delta then (i + 1)%nat else i) in H.
    assert (Hi1 : (i <= i1 <= i + 1)%nat).
    { unfold i1. destruct (deadline nxt <=? delta); lia. }
    inv_bind H. inv_bind H. rename a0 into si, Ha1 into Hsi.
    destruct (num_ltb _ si).
    + inv_bind H. inv_bind H. rewrite Hsi in H. cbn [bind] in H.
      apply index_Ok in Hsi. apply IH in H as [Hi' Hs'].
      split; [lia|]. eapply slack_le_trans; [exact Hs'|].
      apply slack_le_insert_min. exact Hsi.
    + apply IH in H as [Hi' Hs']. split; [lia|exact Hs'].
  - discriminate.
Qed.

(** X13. In the test-point loop of either solver the task pointer never
    moves back, moves by at most one task per test point and never leaves
    the task set when it started inside it; and no slack bound is ever
    raised: every entry the loop leaves is at most the entry it found. *)
Theorem delta_loop_invariants (fuel : nat) (ts : tskset) (sbf_inv : Z -> Z)
    (g : gen) (i i' : nat) (s s' : list num) :
  (approx_loop ts sbf_inv g i s = Ok (i', s')
   \/ exact_loop fuel ts sbf_inv g i s = Ok (i', s')) ->
  (i <= i' <= i + length (yielded g))%nat
  /\ ((i < length ts)%nat -> (i' < length ts)%nat)
  /\ Forall2 num_le s' s.
Proof.
  intros H.
  assert (Hinv : (i <= i' <= i + length (yielded g))%nat
                 /\ Forall2 num_le s' s).
  { destruct H as [H|H];
      [eapply approx_loop_invariants|eapply exact_loop_invariants];
      exact H. }
  destruct Hinv as [Hi Hs]. split; [exact Hi|]. split; [|exact Hs].
  intros Hlt. clear Hi Hs. revert i s H Hlt.
  induction g as [|delta rest IH|e]; intros i s H Hlt.
  - destruct H as [H|H]; cbn in H; injection H as <- _; exact Hlt.
  - destruct H as [H|H]; cbn [approx_loop exact_loop] in H;
      (destruct (Z.leb_spec (Z.of_nat (length ts) - 1) (Z.of_nat i));
       [injection H as <- _; exact Hlt|]);
      inv_bind H; rename a into nxt;
      set (i1 := if deadline nxt <=? delta then (i + 1)%nat else i) in H;
      (assert (Hi1 : (i1 < length ts)%nat)
        by (unfold i1; destruct (deadline nxt <=? delta); lia)).
    + inv_bind H. inv_bind H. apply (IH i1 _ (or_introl H) Hi1).
    + inv_bind H. inv_bind H. rename a0 into si.
      destruct (num_ltb _ si).
      * inv_bind H. inv_bind H. inv_bind H.
        apply (IH i1 _ (or_intror H) Hi1).
      * apply (IH i1 _ (or_intror H) Hi1).
  - destruct H as [H|H]; discriminate.
Qed.

Lemma delta_loop_invariants_witness :
  (0 <= 1 <= 0 + length (yielded (Yield 4 (Yield 6 (Yield 8 Stop)))))%nat
  /\ ((0 < length [task_A; task_B])%nat -> (1 < length [task_A; task_B])%nat)
  /\ Forall2 num_le [Int 3; Int 3] [PosInf; PosInf].
Proof.
  apply (delta_loop_invariants 10 [task_A; task_B] sbf_inverse_uniprocessor
           (Yield 4 (Yield 6 (Yield 8 Stop))) 0 1 [PosInf; PosInf]
           [Int 3; Int 3]).
  left. reflexivity.
Defined.

(** ** The first test points *)

(** X14. When [delta_values] starts on tasks with positive deadlines (its
    horizon search returned), the deadline of every task is among the test
    points it yields, and the first test point is the smallest deadline. *)
Theorem deadlines_are_test_points (fuel : nat) (ts : tskset) (sbf : Z -> Z)
    (g : gen) :
  Forall (fun tsk => 0 < deadline tsk) ts ->
  delta_values fuel ts sbf = Ok g ->
  (forall tsk, In tsk ts -> In (deadline tsk) (yielded g))
  /\ exists dmin rest,
       is_minimum (map deadline ts) dmin /\ yielded g = dmin :: rest.
Proof.
  intros HD Hg. unfold delta_values in Hg.
  apply bind_Ok in Hg as (L & HL & Hg).
  apply bind_Ok in Hg as (dmin & Hmin & Hg). injection Hg as <-.
  unfold find_L in HL. apply bind_Ok in HL as (l & Hl & HL).
  apply bind_Ok in HL as (dmax & Hmax & HL). injection HL as <-.
  unfold find_L_prime in Hl.
  apply find_L_prime_loop_sound in Hl as [Hl0 _].
  assert (Hdmin : is_minimum (map deadline ts) dmin).
  { destruct (map deadline ts) as [|x r]; [discriminate|].
    injection Hmin as <-. apply fold_left_min_spec. }
  assert (Hdmax : is_maximum (map deadline ts) dmax).
  { destruct (map deadline ts) as [|x r]; [discriminate|].
    injection Hmax as <-. apply fold_left_max_spec. }
  destruct Hdmin as [Hmin_in Hmin_le]. destruct Hdmax as [Hmax_in Hmax_ge].
  pose proof (Hmax_ge dmin Hmin_in) as Hmm.
  destruct (delta_loop_spec ts (Z.to_nat (l + dmax + 1 - dmin)) HD dmin)
    as (_ & Hsorted & Hin).
  set (ys := yielded (delta_loop ts (Z.to_nat (l + dmax + 1 - dmin)) dmin))
    in *.
  assert (Hdead : forall tsk, In tsk ts -> In (deadline tsk) ys).
  { intros tsk Htsk. apply Hin.
    assert (Hd : In (deadline tsk) (map deadline ts))
      by (apply in_map; exact Htsk).
    pose proof (Hmin_le _ Hd). pose proof (Hmax_ge _ Hd).
    split; [lia|]. exists tsk. split; [exact Htsk|].
    apply Z_mod_same_full. }
  split; [exact Hdead|].
  assert (Hdmin_y : In dmin ys).
  { apply in_map_iff in Hmin_in as (tsk & <- & Htsk). apply Hdead, Htsk. }
  exists dmin. destruct ys as [|h rest] eqn:E; [destruct Hdmin_y|].
  exists rest. split; [split; assumption|]. f_equal.
  assert (Hh : dmin <= h).
  { assert (In h (h :: rest)) as Hh by (left; reflexivity).
    apply Hin in Hh. lia. }
  destruct Hdmin_y as [->|Hr]; [reflexivity|].
  inversion Hsorted as [|? ? _ Hall]; subst.
  rewrite Forall_forall in Hall. specialize (Hall dmin).
  assert (h < dmin); [|lia]. apply Hall. apply list_elem_of_In. exact Hr.
Qed.

Lemma deadlines_are_test_points_witness :
  (forall tsk, In tsk [task_A; task_B] ->
               In (deadline tsk) (yielded (Yield 4 (Yield 6 (Yield 8 Stop)))))
  /\ exists dmin rest,
       is_minimum (map deadline [task_A; task_B]) dmin
       /\ yielded (Yield 4 (Yield 6 (Yield 8 Stop))) = dmin :: rest.
Proof.
  apply (deadlines_are_test_points 10 [task_A; task_B] sbf_uniprocessor).
  - repeat constructor.
  - reflexivity.
Defined.

(** ** Demand against request and supply *)

(** X15. On tasks with positive cost, period and deadline the request
    bound of the system dominates its demand bound at every [t]. *)
Theorem dbf_le_rbf (ts : tskset) (t : Z) :
  Forall valid_task ts ->
  exists d r, dbf ts t = Ok d /\ rbf ts t = Ok r /\ d <= r.
Proof.
  intros Hv. pose proof (valid_period_nonzero ts Hv) as Hnz.
  exists (dbf_value ts t). rewrite (dbf_value_Ok ts t Hnz).
  unfold rbf, dbf_value.
  destruct (Z.ltb_spec t 0) as [Hn|Hp].
  - exists 0. destruct (Z.leb_spec t 0); [auto with zarith|lia].
  - rewrite (sum_loop_Ok _ (fun tsk => rbf_i_value tsk t)).
    + eexists. split; [reflexivity|]. split; [reflexivity|].
      destruct (Z.leb_spec t 0).
      * rewrite Z.add_0_l. apply total_nonneg. intros tsk.
        apply rbf_i_value_nonneg.
      * rewrite Z.add_0_l. apply total_le.
        eapply Forall_impl; [exact Hv|]. intros tsk (HC & HT & HD). simpl.
        unfold rbf_i_value. destruct (Z.ltb_spec t 0); [lia|].
        apply dbf_i_value_mono; lia.
    + eapply Forall_impl; [exact Hnz|]. intros tsk HT. simpl.
      apply rbf_i_value_Ok. exact HT.
Qed.

Lemma dbf_le_rbf_witness :
  exists d r, dbf [task_A; task_B] 7 = Ok d
              /\ rbf [task_A; task_B] 7 = Ok r /\ d <= r.
Proof.
  apply (dbf_le_rbf [task_A; task_B] 7). repeat constructor; simpl; lia.
Defined.

Lemma dbf_i_value_implicit (tsk : task) (delta : Z) :
  valid_task tsk -> implicit_deadline tsk -> 0 < delta ->
  dbf_i_value tsk delta = delta / period tsk * cost tsk.
Proof.
  intros (HC & HT & HD) Himp Hd. unfold dbf_i_value.
  destruct (Z.leb_spec delta 0); [lia|]. rewrite Himp.
  replace (delta - period tsk) with (delta + (-1) * period tsk) by ring.
  rewrite Z.div_add by lia.
  replace (delta / period tsk + -1 + 1) with (delta / period tsk) by ring.
  pose proof (Z.div_pos delta (period tsk) ltac:(lia) HT).
  apply Z.max_r. nia.
Qed.

Lemma scaled_dbf_le (M delta : Z) (ts : tskset) :
  Forall valid_task ts -> Forall implicit_deadline ts ->
  Forall (fun tsk => (period tsk | M)) ts ->
  0 <= M -> 0 < delta ->
  total (fun tsk => dbf_i_value tsk delta) ts * M
  <= delta * total (fun tsk => cost tsk * (M / period tsk)) ts.
Proof.
  intros Hv Hi Hd HM Hdelta.
  induction Hv as [|tsk rest Hvt _ IH]; simpl; [lia|].
  inversion Hi as [|? ? Hit Hir]; subst.
  inversion Hd as [|? ? Hdt Hdr]; subst. specialize (IH Hir Hdr).
  rewrite (dbf_i_value_implicit tsk delta Hvt Hit Hdelta).
  destruct Hvt as (HC & HT & HD). destruct Hdt as [q Hq].
  replace (M / period tsk) with q
    by (rewrite Hq; symmetry; apply Z.div_mul; lia).
  assert (Hq0 : 0 <= q) by nia.
  pose proof (Z.mul_div_le delta (period tsk) HT) as Hfl.
  assert (Hcq : 0 <= cost tsk * q) by nia.
  assert (Hterm : delta / period tsk * cost tsk * M
                  <= delta * (cost tsk * q)).
  { rewrite Hq.
    replace (delta / period tsk * cost tsk * (q * period tsk))
      with ((period tsk * (delta / period tsk)) * (cost tsk * q)) by ring.
    apply Z.mul_le_mono_nonneg_r; assumption. }
  lia.
Qed.

(** With implicit deadlines and utilization at most one the demand in an
    interval never exceeds its length. *)
Lemma dbf_value_implicit_le (ts : tskset) (u : Q) (delta : Z) :
  Forall valid_task ts -> Forall implicit_deadline ts ->
  utilization ts = Ok u -> (u <= 1)%Q -> 0 < delta ->
  dbf_value ts delta <= delta.
Proof.
  intros Hv Hi Hu Hle Hdelta.
  set (P := period_product ts).
  set (W := total (fun tsk => cost tsk * (P / period tsk)) ts).
  pose proof (period_product_pos ts Hv) as HP. fold P in HP.
  pose proof (utilization_scaled P ts Hv (period_product_divide ts) u Hu) as HW.
  fold W in HW.
  assert (HWP : W <= P).
  { rewrite Zle_Qle, <- HW.
    rewrite <- (Qmult_1_l (inject_Z P)) at 2.
    apply Qmult_le_compat_r; [exact Hle|].
    change 0%Q with (inject_Z 0). rewrite <- Zle_Qle. lia. }
  pose proof (scaled_dbf_le P delta ts Hv Hi (period_product_divide ts)
                ltac:(lia) Hdelta) as Hs.
  fold W in Hs. unfold dbf_value. destruct (Z.leb_spec delta 0); [lia|].
  nia.
Qed.

(** ** Implicit deadlines *)

Lemma approx_loop_preserves (P : num -> Prop) (ts : tskset)
    (sbf_inv : Z -> Z) (g : gen) :
  (forall delta d, In delta (yielded g) -> dbf ts delta = Ok d ->
                   P (Int (delta - sbf_inv d))) ->
  forall i s i' s',
    approx_loop ts sbf_inv g i s = Ok (i', s') -> Forall P s -> Forall P s'.
Proof.
  induction g as [|delta rest IH|e]; intros Hc i s i' s' H Hs;
    cbn [approx_loop yielded] in *.
  - injection H as <- <-. exact Hs.
  - destruct (Z.of_nat (length ts) - 1 <=? Z.of_nat i);
      [injection H as <- <-; exact Hs|].
    apply bind_Ok in H as (nxt & _ & H).
    apply bind_Ok in H as (si & Hsi & H).
    apply bind_Ok in H as (d & Hd & H).
    apply index_Ok in Hsi.
    eapply IH; [|exact H|].
    + intros delta' d' Hin. apply Hc. right. exact Hin.
    + apply Forall_insert; [exact Hs|].
      destruct (num_min_cases si (Int (delta - sbf_inv d))) as [-> | ->].
      * rewrite Forall_lookup in Hs. eapply Hs. exact Hsi.
      * apply Hc; [left; reflexivity|exact Hd].
  - discriminate.
Qed.

Lemma exact_loop_preserves (P : num -> Prop) (fuel : nat) (ts : tskset)
    (g : gen) :
  (forall delta d gamma, In delta (yielded g) -> dbf ts delta = Ok d ->
                         gamma <= d -> P (Int (delta - gamma))) ->
  forall i s i' s',
    exact_loop fuel ts sbf_inverse_uniprocessor g i s = Ok (i', s') ->
    Forall P s -> Forall P s'.
Proof.
  induction g as [|delta rest IH|e]; intros Hc i s i' s' H Hs;
    cbn [exact_loop yielded] in *.
  - injection H as <- <-. exact Hs.
  - destruct (Z.of_nat (length ts) - 1 <=? Z.of_nat i);
      [injection H as <- <-; exact Hs|].
    assert (Hrest : forall delta' d' gamma', In delta' (yielded rest) ->
              dbf ts delta' = Ok d' -> gamma' <= d' ->
              P (Int (delta' - gamma'))).
    { intros delta' d' gamma' Hin. apply Hc. right. exact Hin. }
    apply bind_Ok in H as (nxt & _ & H).
    apply bind_Ok in H as (d & Hd & H).
    apply bind_Ok in H as (si & Hsi & H).
    destruct (num_ltb _ si).
    + apply bind_Ok in H as (m0 & Hm0 & H).
      apply bind_Ok in H as (gamma & Hgamma & H).
      rewrite Hsi in H. cbn [bind] in H. apply index_Ok in Hsi.
      assert (Hg : gamma <= d).
      { apply (gamma_loop_le_dbf fuel ts delta d Hd _ _ _) in Hgamma;
          [exact Hgamma|].
        unfold sbf_inverse_uniprocessor. eapply mbf_le_dbf; eassumption. }
      eapply IH; [exact Hrest|exact H|].
      apply Forall_insert; [exact Hs|].
      destruct (num_min_cases si (Int (delta - gamma))) as [-> | ->].
      * rewrite Forall_lookup in Hs. eapply Hs. exact Hsi.
      * apply (Hc delta d gamma); [left; reflexivity|exact Hd|exact Hg].
    + eapply IH; [exact Hrest|exact H|exact Hs].
  - discriminate.
Qed.

Lemma delta_values_positive (fuel : nat) (ts : tskset) (sbf : Z -> Z)
    (g : gen) :
  Forall (fun tsk => 0 < deadline tsk) ts ->
  delta_values fuel ts sbf = Ok g ->
  forall delta, In delta (yielded g) -> 0 < delta.
Proof.
  intros HD Hg delta Hin. unfold delta_values in Hg.
  apply bind_Ok in Hg as (L & _ & Hg).
  apply bind_Ok in Hg as (dmin & Hmin & Hg). injection Hg as <-.
  assert (Hdmin : is_minimum (map deadline ts) dmin).
  { destruct (map deadline ts) as [|x r]; [discriminate|].
    injection Hmin as <-. apply fold_left_min_spec. }
  destruct Hdmin as [Hmin_in _].
  apply in_map_iff in Hmin_in as (tsk & <- & Htsk).
  pose proof HD as HDall.
  rewrite Forall_forall in HD. apply list_elem_of_In in Htsk.
  specialize (HD tsk Htsk).
  destruct (delta_loop_spec ts (Z.to_nat (L + 1 - deadline tsk)) HDall
              (deadline tsk))
    as (_ & _ & Hspec).
  apply Hspec in Hin. lia.
Qed.

(** Finalizing from non-negative slack bounds keeps every task within its
    deadline. *)
Lemma final_loop_within_deadline (ts ts' : tskset) (s s' : list num) :
  length s = length ts -> Forall (num_le (Int 0)) s ->
  final_loop (length ts) ts s = Ok (ts', s') ->
  Forall within_deadline ts'.
Proof.
  intros Hlen Hs H.
  destruct (final_loop_result ts s Hlen) as (ts3 & s3 & H3 & _ & Hr).
  rewrite H in H3. injection H3 as <- <-.
  destruct (final_loop_erase ts ts' s s' Hlen H) as [Hl _].
  apply Forall_forall. intros t Ht.
  apply list_elem_of_lookup in Ht as [i Hi].
  assert (Hil : (i < length ts)%nat) by (apply lookup_lt_Some in Hi; lia).
  destruct (lookup_lt_is_Some_2 ts i Hil) as [tsk Htsk].
  destruct (Hr i tsk Htsk) as (m & [(j & _ & Hj) _] & _ & Ht').
  rewrite Hi in Ht'. injection Ht' as ->.
  rewrite Forall_lookup in Hs. specialize (Hs j m Hj).
  exists (num_rsub (deadline tsk) m). split; [reflexivity|]. simpl.
  unfold num_le in *. destruct m; simpl in *; try congruence.
  rewrite Z.ltb_ge in *. lia.
Qed.

Lemma implicit_slack_nonneg (ts : tskset) (u : Q) (delta d gamma : Z) :
  Forall valid_task ts -> Forall implicit_deadline ts ->
  utilization ts = Ok u -> (u <= 1)%Q -> 0 < delta ->
  dbf ts delta = Ok d -> gamma <= d ->
  num_le (Int 0) (Int (delta - gamma)).
Proof.
  intros Hv Hi Hu Hle Hdelta Hd Hg.
  rewrite (dbf_value_Ok ts delta (valid_period_nonzero ts Hv)) in Hd.
  injection Hd as <-.
  pose proof (dbf_value_implicit_le ts u delta Hv Hi Hu Hle Hdelta).
  apply num_le_Int. lia.
Qed.

(** X16. For tasks with positive cost and period and implicit deadlines
    (deadline = period) and utilization at most 1, every response time a
    returning run of either solver writes, under the uniprocessor supply
    model, is at most the deadline of its task. *)
Theorem implicit_deadlines_are_met (fuel : nat) (ts ts' : tskset) (u : Q)
    (r : retval) :
  Forall valid_task ts -> Forall implicit_deadline ts ->
  utilization ts = Ok u -> (u <= 1)%Q ->
  (approx_wcrt fuel ts sbf_uniprocessor sbf_inverse_uniprocessor = Ok (r, ts')
   \/ exact_wcrt fuel ts sbf_uniprocessor sbf_inverse_uniprocessor
      = Ok (r, ts')) ->
  r = RetNone /\ Forall within_deadline ts'.
Proof.
  intros Hv Hi Hu Hle Hrun.
  set (sorted := sort_by_deadline ts).
  assert (Hvs : Forall valid_task sorted)
    by (apply sort_by_deadline_Forall; exact Hv).
  assert (His : Forall implicit_deadline sorted)
    by (apply sort_by_deadline_Forall; exact Hi).
  assert (HDs : Forall (fun tsk => 0 < deadline tsk) sorted).
  { eapply Forall_impl; [exact Hvs|]. intros tsk (_ & _ & H). exact H. }
  destruct (utilization_sort ts u Hu) as (u' & Hu' & Eu). fold sorted in Hu'.
  assert (Hle' : (u' <= 1)%Q) by (rewrite Eu; exact Hle).
  assert (Hex1 : exceeds_one u = false) by (apply exceeds_one_false; exact Hle).
  assert (Hinit : Forall (num_le (Int 0)) (replicate (length sorted) PosInf)).
  { apply Forall_replicate. reflexivity. }
  destruct Hrun as [H|H].
  - apply approx_wcrt_Ok in H as (u1 & Hu1 & Hc).
    rewrite Hu in Hu1. injection Hu1 as <-.
    destruct Hc as [(Hx & _)|(_ & -> & first & g & i & s & s2 & _ & Hg & Hl & Hf)];
      [congruence|].
    fold sorted in Hg, Hl, Hf. split; [reflexivity|].
    eapply final_loop_within_deadline; [| |exact Hf].
    + rewrite (approx_loop_length _ _ _ _ _ _ _ Hl). apply length_replicate.
    + eapply approx_loop_preserves; [|exact Hl|exact Hinit].
      intros delta d Hin Hd. unfold sbf_inverse_uniprocessor.
      eapply (implicit_slack_nonneg sorted u' delta d d); eauto.
      * eapply delta_values_positive; eassumption.
      * lia.
  - apply exact_wcrt_Ok in H as (u1 & Hu1 & Hc).
    rewrite Hu in Hu1. injection Hu1 as <-.
    destruct Hc as [(Hx & _)|(_ & -> & first & g & i & s & s2 & _ & Hg & Hl & Hf)];
      [congruence|].
    fold sorted in Hg, Hl, Hf. split; [reflexivity|].
    eapply final_loop_within_deadline; [| |exact Hf].
    + rewrite (exact_loop_length _ _ _ _ _ _ _ _ Hl). apply length_replicate.
    + eapply exact_loop_preserves; [|exact Hl|exact Hinit].
      intros delta d gamma Hin Hd Hgm.
      eapply (implicit_slack_nonneg sorted u' delta d gamma); eauto.
      eapply delta_values_positive; eassumption.
Qed.

Lemma implicit_deadlines_are_met_witness :
  RetNone = RetNone
  /\ Forall within_deadline
       [mkTask 1 4 4 (Some (Int 1)); mkTask 2 6 6 (Some (Int 3))].
Proof.
  eapply (implicit_deadlines_are_met 10 [task_B; task_A]).
  - repeat constructor; simpl; lia.
  - repeat constructor.
  - reflexivity.
  - unfold Qle; simpl. lia.
  - left. reflexivity.
Defined.

(** ** A zero deadline *)

(** X17. When the first task of the set has deadline zero, [delta_values]
    never yields a test point: once its horizon search has returned, the
    first request for a value fails with the division error of
    [delta % tsk.deadline]. *)
Theorem delta_values_zero_deadline (fuel : nat) (tsk : task) (rest : tskset)
    (sbf : Z -> Z) (g : gen) :
  deadline tsk = 0 ->
  delta_values fuel (tsk :: rest) sbf = Ok g ->
  g = Throw ZeroDivisionError.
Proof.
  intros H0 Hg. unfold delta_values in Hg.
  apply bind_Ok in Hg as (L & HL & Hg).
  apply bind_Ok in Hg as (dmin & Hmin & Hg). injection Hg as <-.
  unfold find_L in HL. apply bind_Ok in HL as (l & Hl & HL).
  apply bind_Ok in HL as (dmax & Hmax & HL). injection HL as <-.
  unfold find_L_prime in Hl.
  apply find_L_prime_loop_sound in Hl as [Hl0 _].
  cbn [map py_min py_max] in Hmin, Hmax.
  injection Hmin as <-. injection Hmax as <-.
  destruct (fold_left_min_spec (map deadline rest) (deadline tsk))
    as [Hin Hle].
  destruct (fold_left_max_spec (map deadline rest) (deadline tsk))
    as [_ Hge].
  pose proof (Hge _ Hin) as Hmm.
  destruct (Z.to_nat _) as [|n] eqn:En; [lia|].
  cbn [delta_loop is_test_point]. rewrite H0. reflexivity.
Qed.

Lemma delta_values_zero_deadline_witness :
  delta_values 10 [mkTask 1 4 0 None; task_B] sbf_uniprocessor
  = Ok (Throw ZeroDivisionError)
  /\ Throw ZeroDivisionError = Throw ZeroDivisionError.
Proof.
  split; [reflexivity|].
  apply (delta_values_zero_deadline 10 (mkTask 1 4 0 None) [task_B]
           sbf_uniprocessor (Throw ZeroDivisionError)); reflexivity.
Defined.

(** ** What the analyses write *)

Lemma gamma_loop_fixed (ts : tskset) (sbf_inv : Z -> Z) (delta : Z) :
  forall fuel gamma_old gamma_new gamma,
    (exists m, mbf ts delta gamma_old = Ok m /\ gamma_new = sbf_inv m) ->
    gamma_loop fuel ts sbf_inv delta gamma_old gamma_new = Ok gamma ->
    exists m, mbf ts delta gamma = Ok m /\ gamma = sbf_inv m.
Proof.
  induction fuel as [|fuel IH]; intros go gn gamma Hinv H; [discriminate|].
  cbn [gamma_loop] in H. destruct (Z.eqb_spec gn go) as [E|E].
  - injection H as <-. rewrite <- E in Hinv. exact Hinv.
  - apply bind_Ok in H as (m' & Hm' & H).
    apply (IH gn (sbf_inv m') gamma); [eauto|exact H].
Qed.

Lemma exact_loop_preserves_fixed (P : num -> Prop) (fuel : nat)
    (ts : tskset) (sbf_inv : Z -> Z) (g : gen) :
  (forall delta gamma m, In delta (yielded g) ->
      mbf ts delta gamma = Ok m -> gamma = sbf_inv m ->
      P (Int (delta - gamma))) ->
  forall i s i' s',
    exact_loop fuel ts sbf_inv g i s = Ok (i', s') ->
    Forall P s -> Forall P s'.
Proof.
  induction g as [|delta rest IH|e]; intros Hc i s i' s' H Hs;
    cbn [exact_loop yielded] in *.
  - injection H as <- <-. exact Hs.
  - destruct (Z.of_nat (length ts) - 1 <=? Z.of_nat i);
      [injection H as <- <-; exact Hs|].
    assert (Hrest : forall delta' gamma' m', In delta' (yielded rest) ->
              mbf ts delta' gamma' = Ok m' -> gamma' = sbf_inv m' ->
              P (Int (delta' - gamma'))).
    { intros delta' gamma' m' Hin. apply Hc. right. exact Hin. }
    apply bind_Ok in H as (nxt & _ & H).
    apply bind_Ok in H as (d & Hd & H).
    apply bind_Ok in H as (si & Hsi & H).
    destruct (num_ltb _ si).
    + apply bind_Ok in H as (m0 & Hm0 & H).
      apply bind_Ok in H as (gamma & Hgamma & H).
      rewrite Hsi in H. cbn [bind] in H. apply index_Ok in Hsi.
      apply gamma_loop_fixed in Hgamma as (m & Hm & Hfix); [|eauto].
      eapply IH; [exact Hrest|exact H|].
      apply Forall_insert; [exact Hs|].
      destruct (num_min_cases si (Int (delta - gamma))) as [-> | ->].
      * rewrite Forall_lookup in Hs. eapply Hs. exact Hsi.
      * apply (Hc delta gamma m); [left; reflexivity|exact Hm|exact Hfix].
    + eapply IH; [exact Hrest|exact H|exact Hs].
  - discriminate.
Qed.

(** Finalization turns a property of the slack bounds into one of the
    tasks. *)
Lemma final_loop_transfers (P : num -> Prop) (Q : task -> Prop)
    (ts ts' : tskset) (s s' : list num) :
  length s = length ts -> Forall P s ->
  (forall tsk m, P m ->
                 Q (set_response_time tsk (num_rsub (deadline tsk) m))) ->
  final_loop (length ts) ts s = Ok (ts', s') ->
  Forall Q ts'.
Proof.
  intros Hlen Hs HPQ H.
  destruct (final_loop_result ts s Hlen) as (ts3 & s3 & H3 & Hl & Hr).
  rewrite H in H3. injection H3 as <- <-.
  apply Forall_forall. intros t Ht.
  apply list_elem_of_lookup in Ht as [i Hi].
  assert (Hil : (i < length ts)%nat) by (apply lookup_lt_Some in Hi; lia).
  destruct (lookup_lt_is_Some_2 ts i Hil) as [tsk Htsk].
  destruct (Hr i tsk Htsk) as (m & [(j & _ & Hj) _] & _ & Ht').
  rewrite Hi in Ht'. injection Ht' as ->.
  apply HPQ. rewrite Forall_lookup in Hs. exact (Hs j m Hj).
Qed.

(** X18. Every response time a returning run of [approx_wcrt] writes is
    either [-inf] or the task's deadline minus the candidate slack
    [delta - sbf_inverse(dbf(tskset, delta))] of one of the test points
    [delta] that [delta_values] yields for the returned task set. *)
Theorem approx_writes_candidates (fuel : nat) (ts ts' : tskset)
    (sbf sbf_inv : Z -> Z) :
  approx_wcrt fuel ts sbf sbf_inv = Ok (RetNone, ts') ->
  exists g,
    delta_values fuel ts' sbf = Ok g
    /\ Forall (approx_candidate ts' sbf_inv g) ts'.
Proof.
  intros H. apply approx_wcrt_Ok in H as (u & _ & Hc).
  destruct Hc as [(_ & Hx & _)|(_ & _ & first & g & i & s & s2 & _ & Hg & Hl & Hf)];
    [discriminate|].
  set (sorted := sort_by_deadline ts) in *.
  assert (Hlen : length s = length sorted).
  { rewrite (approx_loop_length _ _ _ _ _ _ _ Hl). apply length_replicate. }
  destruct (final_loop_erase _ _ _ _ Hlen Hf) as [_ Herase].
  exists g. split.
  { rewrite <- delta_values_erase, Herase, delta_values_erase. exact Hg. }
  set (P := fun x : num =>
              x = PosInf
              \/ exists delta d, In delta (yielded g)
                                 /\ dbf sorted delta = Ok d
                                 /\ x = Int (delta - sbf_inv d)).
  assert (Hs : Forall P s).
  { eapply (approx_loop_preserves P); [|exact Hl|].
    - intros delta d Hin Hd. right. eauto.
    - apply Forall_replicate. left. reflexivity. }
  eapply (final_loop_transfers P); [exact Hlen|exact Hs| |exact Hf].
  intros tsk m [->|(delta & d & Hin & Hd & ->)].
  - left. reflexivity.
  - right. exists delta, d. split; [exact Hin|]. split; [|reflexivity].
    rewrite <- dbf_erase, Herase, dbf_erase. exact Hd.
Qed.

Lemma approx_writes_candidates_witness :
  exists g,
    delta_values 10
      [mkTask 1 4 4 (Some (Int 1)); mkTask 2 6 6 (Some (Int 3))]
      sbf_uniprocessor = Ok g
    /\ Forall
         (approx_candidate
            [mkTask 1 4 4 (Some (Int 1)); mkTask 2 6 6 (Some (Int 3))]
            sbf_inverse_uniprocessor g)
         [mkTask 1 4 4 (Some (Int 1)); mkTask 2 6 6 (Some (Int 3))].
Proof.
  apply (approx_writes_candidates 10 [task_B; task_A]). reflexivity.
Defined.

(** X19. Every response time a returning run of [exact_wcrt] writes is
    either [-inf] or the task's deadline minus [delta - gamma], for one of
    the test points [delta] of the returned task set and a [gamma] with
    [gamma = sbf_inverse(mbf(tskset, delta, gamma))]: a fixed point of the
    inner iteration. *)
Theorem exact_writes_fixed_points (fuel : nat) (ts ts' : tskset)
    (sbf sbf_inv : Z -> Z) :
  exact_wcrt fuel ts sbf sbf_inv = Ok (RetNone, ts') ->
  exists g,
    delta_values fuel ts' sbf = Ok g
    /\ Forall (exact_candidate ts' sbf_inv g) ts'.
Proof.
  intros H. apply exact_wcrt_Ok in H as (u & _ & Hc).
  destruct Hc as [(_ & Hx & _)|(_ & _ & first & g & i & s & s2 & _ & Hg & Hl & Hf)];
    [discriminate|].
  set (sorted := sort_by_deadline ts) in *.
  assert (Hlen : length s = length sorted).
  { rewrite (exact_loop_length _ _ _ _ _ _ _ _ Hl). apply length_replicate. }
  destruct (final_loop_erase _ _ _ _ Hlen Hf) as [_ Herase].
  exists g. split.
  { rewrite <- delta_values_erase, Herase, delta_values_erase. exact Hg. }
  set (P := fun x : num =>
              x = PosInf
              \/ exists delta gamma m, In delta (yielded g)
                                 /\ mbf sorted delta gamma = Ok m
                                 /\ gamma = sbf_inv m
                                 /\ x = Int (delta - gamma)).
  assert (Hs : Forall P s).
  { eapply (exact_loop_preserves_fixed P); [|exact Hl|].
    - intros delta gamma m Hin Hm Hfix. right. eauto 10.
    - apply Forall_replicate. left. reflexivity. }
  eapply (final_loop_transfers P); [exact Hlen|exact Hs| |exact Hf].
  intros tsk m [->|(delta & gamma & m' & Hin & Hm & Hfix & ->)].
  - left. reflexivity.
  - right. exists delta, gamma, m'. split; [exact Hin|].
    split; [|split; [exact Hfix|reflexivity]].
    rewrite <- mbf_erase, Herase, mbf_erase. exact Hm.
Qed.

Lemma exact_writes_fixed_points_witness :
  exists g,
    delta_values 40
      [mkTask 1 4 2 (Some (Int 1)); mkTask 2 6 5 (Some (Int 3));
       mkTask 3 20 15 (Some (Int 10))]
      sbf_uniprocessor = Ok g
    /\ Forall
         (exact_candidate
            [mkTask 1 4 2 (Some (Int 1)); mkTask 2 6 5 (Some (Int 3));
             mkTask 3 20 15 (Some (Int 10))]
            sbf_inverse_uniprocessor g)
         [mkTask 1 4 2 (Some (Int 1)); mkTask 2 6 5 (Some (Int 3));
          mkTask 3 20 15 (Some (Int 10))].
Proof.
  apply (exact_writes_fixed_points 40
           [mkTask 1 4 2 None; mkTask 2 6 5 None; mkTask 3 20 15 None]).
  reflexivity.
Defined.
